(** * bettermode-api-scraper: the content gateway of [main.go]

    A shallow embedding of the token manager, the upstream client, the text
    normalizer and the [POST /content] handler, together with the parts of
    the Go standard library they call ([unicode/utf8], [unicode], [strings],
    [strconv.Quote], the string decoding of [encoding/json]).

    Go strings are byte sequences: they are lists of [ascii] here, and a rune
    is a [Z].  Loops that advance an index by the width of what they have
    just read are written with a [skip] counter: the number of bytes of the
    current item that the position still has to pass. *)

From Stdlib Require Import ZArith List Bool Ascii String Lia ZifyBool Permutation.
Import ListNotations.

Local Open Scope Z_scope.

(* ================================================================= *)
(** * Part I: definitions *)
(* ================================================================= *)

(** ** Go strings *)

Definition gostring := list ascii.

(** A Go string literal. *)
Definition str (s : string) : gostring := list_ascii_of_string s.

Definition byteVal (c : ascii) : Z := Z.of_N (N_of_ascii c).
Definition byteOf (z : Z) : ascii := ascii_of_N (Z.to_N z).

Definition dquote : ascii := byteOf 34.
Definition backslash : ascii := byteOf 92.

Fixpoint streq (a b : gostring) : bool :=
  match a, b with
  | [], [] => true
  | x :: a', y :: b' => Ascii.eqb x y && streq a' b'
  | _, _ => false
  end.

(** ** unicode/utf8 *)

Module utf8.

Definition RuneError : Z := 65533.     (* U+FFFD *)
Definition RuneSelf : Z := 128.
Definition MaxRune : Z := 1114111.     (* U+10FFFF *)
Definition UTFMax : Z := 4.

(** The entry of the table [first] for a leading byte: an ASCII byte, an
    invalid leading byte, or the size of the sequence with the range the
    second byte is accepted in. *)
Inductive firstInfo :=
| as_
| xx
| lead (sz : nat) (lo hi : Z).

Definition locb : Z := 128.
Definition hicb : Z := 191.

Definition first (b : Z) : firstInfo :=
  if b <? 128 then as_
  else if b <? 194 then xx
  else if b <? 224 then lead 2 locb hicb          (* s1 *)
  else if b =? 224 then lead 3 160 hicb           (* s2 *)
  else if b <? 237 then lead 3 locb hicb          (* s3 *)
  else if b =? 237 then lead 3 locb 159           (* s4 *)
  else if b <? 240 then lead 3 locb hicb          (* s3 *)
  else if b =? 240 then lead 4 144 hicb           (* s5 *)
  else if b <? 244 then lead 4 locb hicb          (* s6 *)
  else if b =? 244 then lead 4 locb 143           (* s7 *)
  else xx.

Definition inRange (b lo hi : Z) : bool := (lo <=? b) && (b <=? hi).

(** [DecodeRuneInString]: the first rune of [s] and its width in bytes.
    [x & mask] is written [x mod 2^k], [x << k] is [x * 2^k], and the
    [|] of disjoint bit fields is [+]. *)
Definition DecodeRuneInString (s : gostring) : Z * nat :=
  match s with
  | [] => (RuneError, 0%nat)
  | c0 :: t =>
    let s0 := byteVal c0 in
    match first s0 with
    | as_ => (s0, 1%nat)
    | xx => (RuneError, 1%nat)
    | lead sz lo hi =>
      if (List.length s <? sz)%nat then (RuneError, 1%nat)
      else
        match t with
        | [] => (RuneError, 1%nat)
        | c1 :: t1 =>
          let s1 := byteVal c1 in
          if negb (inRange s1 lo hi) then (RuneError, 1%nat)
          else if (sz <=? 2)%nat then ((s0 mod 32) * 64 + s1 mod 64, 2%nat)
          else
            match t1 with
            | [] => (RuneError, 1%nat)
            | c2 :: t2 =>
              let s2 := byteVal c2 in
              if negb (inRange s2 locb hicb) then (RuneError, 1%nat)
              else if (sz <=? 3)%nat then
                ((s0 mod 16) * 4096 + (s1 mod 64) * 64 + s2 mod 64, 3%nat)
              else
                match t2 with
                | [] => (RuneError, 1%nat)
                | c3 :: _ =>
                  let s3 := byteVal c3 in
                  if negb (inRange s3 locb hicb) then (RuneError, 1%nat)
                  else ((s0 mod 8) * 262144 + (s1 mod 64) * 4096
                        + (s2 mod 64) * 64 + s3 mod 64, 4%nat)
                end
            end
        end
    end
  end.

Definition isSurrogate (r : Z) : bool := (55296 <=? r) && (r <=? 57343).

Definition ValidRune (r : Z) : bool :=
  (0 <=? r) && (r <=? MaxRune) && negb (isSurrogate r).

Definition encode3 (r : Z) : gostring :=
  [byteOf (224 + r / 4096); byteOf (128 + (r / 64) mod 64);
   byteOf (128 + r mod 64)].

(** [AppendRune] on an empty buffer: the UTF-8 encoding of [r]; a rune out
    of range or a surrogate is written as [RuneError]. *)
Definition EncodeRune (r : Z) : gostring :=
  if (0 <=? r) && (r <=? 127) then [byteOf r]
  else if (0 <=? r) && (r <=? 2047) then
    [byteOf (192 + r / 64); byteOf (128 + r mod 64)]
  else if negb (ValidRune r) then encode3 RuneError
  else if r <=? 65535 then encode3 r
  else [byteOf (240 + r / 262144); byteOf (128 + (r / 4096) mod 64);
        byteOf (128 + (r / 64) mod 64); byteOf (128 + r mod 64)].

(** [RuneStart]: the byte is not a continuation byte. *)
Definition RuneStart (b : Z) : bool := negb (inRange b 128 191).

(** The byte of [s] at index [i]. *)
Definition byteAt (s : gostring) (i : Z) : Z :=
  byteVal (nth (Z.to_nat i) s zero).

(** The loop [for start--; start >= lim; start--] of
    [DecodeLastRuneInString]; it runs at most [UTFMax - 1] times. *)
Fixpoint scanBack (n : nat) (s : gostring) (start lim : Z) : Z :=
  match n with
  | O => start
  | S n' =>
    if start <? lim then start
    else if RuneStart (byteAt s start) then start
    else scanBack n' s (start - 1) lim
  end.

Definition DecodeLastRuneInString (s : gostring) : Z * nat :=
  let end_ := Z.of_nat (List.length s) in
  if end_ =? 0 then (RuneError, 0%nat)
  else
    let r := byteAt s (end_ - 1) in
    if r <? RuneSelf then (r, 1%nat)
    else
      let lim := Z.max (end_ - UTFMax) 0 in
      let start := scanBack 4 s (end_ - 2) lim in
      let start := if start <? 0 then 0 else start in
      let (r, size) := DecodeRuneInString (skipn (Z.to_nat start) s) in
      if negb (start + Z.of_nat size =? end_) then (RuneError, 1%nat)
      else (r, size).

(** The runes a [for _, r := range s] loop yields, in order. *)
Fixpoint runes (skip : nat) (s : gostring) : list Z :=
  match s with
  | [] => []
  | _ :: t =>
    match skip with
    | S k => runes k t
    | O => let (r, w) := DecodeRuneInString s in r :: runes (w - 1) t
    end
  end.

Definition RuneCountInString (s : gostring) : nat := List.length (runes 0 s).

End utf8.

(** ** unicode *)

Module unicode.

Definition MaxLatin1 : Z := 255.

(** [IsSpace]: the Latin-1 cases, then the [White_Space] table. *)
Definition IsSpace (r : Z) : bool :=
  if (0 <=? r) && (r <=? MaxLatin1) then
    (9 <=? r) && (r <=? 13) || (r =? 32) || (r =? 133) || (r =? 160)
  else
    (r =? 5760) || (8192 <=? r) && (r <=? 8202) || (r =? 8232)
    || (r =? 8233) || (r =? 8239) || (r =? 8287) || (r =? 12288).

End unicode.

(** ** strings *)

Module strings.

Fixpoint HasPrefix (s prefix : gostring) {struct prefix} : bool :=
  match prefix with
  | [] => true
  | p :: prefix' =>
    match s with
    | [] => false
    | c :: s' => Ascii.eqb c p && HasPrefix s' prefix'
    end
  end.

(** [Index]: the position of the first instance of [substr] in [s]. *)
Fixpoint Index (s substr : gostring) : option nat :=
  if HasPrefix s substr then Some 0%nat
  else
    match s with
    | [] => None
    | _ :: s' => option_map S (Index s' substr)
    end.

Definition Contains (s substr : gostring) : bool :=
  match Index s substr with Some _ => true | None => false end.

(** The non-overlapping instances of [old], leftmost first, replaced by
    [new]. *)
Fixpoint replaceFrom (skip : nat) (s old new : gostring) : gostring :=
  match s with
  | [] => []
  | c :: t =>
    match skip with
    | S k => replaceFrom k t old new
    | O =>
      if HasPrefix s old
      then new ++ replaceFrom (List.length old - 1) t old new
      else c :: replaceFrom 0 t old new
    end
  end.

(** [ReplaceAll] for a non-empty [old], which is all [main.go] passes: each
    call there has a literal pattern.  (For an empty [old] Go inserts [new]
    around every rune; that case is left as the identity.) *)
Definition ReplaceAll (s old new : gostring) : gostring :=
  match old with
  | [] => s
  | _ => replaceFrom 0 s old new
  end.

(** [TrimLeftFunc s unicode.IsSpace]. *)
Fixpoint trimLeft (skip : nat) (s : gostring) : gostring :=
  match s with
  | [] => []
  | _ :: t =>
    match skip with
    | S k => trimLeft k t
    | O =>
      let (r, w) := utf8.DecodeRuneInString s in
      if unicode.IsSpace r then trimLeft (w - 1) t else s
    end
  end.

(** [TrimRightFunc s unicode.IsSpace]: while the last rune is white space,
    cut it off.  [n] bounds the number of rounds; [length s] is enough. *)
Fixpoint trimRight (n : nat) (s : gostring) : gostring :=
  match n with
  | O => s
  | S n' =>
    match s with
    | [] => []
    | _ =>
      let (r, size) := utf8.DecodeLastRuneInString s in
      if unicode.IsSpace r
      then trimRight n' (firstn (List.length s - size) s)
      else s
    end
  end.

(** [TrimSpace s = TrimFunc s unicode.IsSpace]. *)
Definition TrimSpace (s : gostring) : gostring :=
  let l := trimLeft 0 s in trimRight (List.length l) l.

End strings.

(** ** The text normalizer: [stripHTMLTags] *)

Definition lt_rune : Z := 60.   (* '<' *)
Definition gt_rune : Z := 62.   (* '>' *)

(** The scan of [stripHTMLTags]: what the loop over the runes of [html]
    writes to the builder, from a position inside ([inTag]) or outside a
    tag. *)
Fixpoint scanTags (skip : nat) (inTag : bool) (html : gostring) : gostring :=
  match html with
  | [] => []
  | _ :: t =>
    match skip with
    | S k => scanTags k inTag t
    | O =>
      let (r, w) := utf8.DecodeRuneInString html in
      if r =? lt_rune then scanTags (w - 1) true t
      else if r =? gt_rune then str " " ++ scanTags (w - 1) false t
      else if negb inTag then utf8.EncodeRune r ++ scanTags (w - 1) inTag t
      else scanTags (w - 1) inTag t
    end
  end.

(** The loop [for strings.Contains(text, "  ")]; [n] bounds the number of
    rounds. *)
Fixpoint collapseSpaces (n : nat) (text : gostring) : gostring :=
  match n with
  | O => text
  | S n' =>
    if strings.Contains text (str "  ")
    then collapseSpaces n' (strings.ReplaceAll text (str "  ") (str " "))
    else text
  end.

Definition newline : gostring := [byteOf 10].

Definition stripHTMLTags (html : gostring) : gostring :=
  let text := scanTags 0 false html in
  let text := strings.ReplaceAll text (str "&nbsp;") (str " ") in
  let text := strings.ReplaceAll text (newline ++ newline) newline in
  let text := collapseSpaces (List.length text) text in
  strings.TrimSpace text.

(** ** strconv.Quote *)

Module strconv.

Definition lowerhex (d : Z) : ascii :=
  nth (Z.to_nat d) (str "0123456789abcdef") zero.

(** [IsPrint]: the Latin-1 rule of [strconv.IsPrint]; above Latin-1 Go
    searches its Unicode tables, which are an argument here
    ([printTable]). *)
Definition IsPrint (printTable : Z -> bool) (r : Z) : bool :=
  if r <=? 255 then
    if (32 <=? r) && (r <=? 126) then true
    else if (161 <=? r) && (r <=? 255) then negb (r =? 173)
    else false
  else printTable r.

Definition hex4 (r : Z) : gostring :=
  [lowerhex ((r / 4096) mod 16); lowerhex ((r / 256) mod 16);
   lowerhex ((r / 16) mod 16); lowerhex (r mod 16)].

Definition hex8 (r : Z) : gostring :=
  hex4 ((r / 65536) mod 65536) ++ hex4 (r mod 65536).

(** [appendEscapedRune] for the double quote, neither ASCII-only nor
    graphic-only, on an empty buffer. *)
Definition appendEscapedRune (printTable : Z -> bool) (r : Z) : gostring :=
  if (r =? 34) || (r =? 92) then [backslash; byteOf r]
  else if IsPrint printTable r then utf8.EncodeRune r
  else if r =? 7 then str "\a"
  else if r =? 8 then str "\b"
  else if r =? 12 then str "\f"
  else if r =? 10 then str "\n"
  else if r =? 13 then str "\r"
  else if r =? 9 then str "\t"
  else if r =? 11 then str "\v"
  else if (r <? 32) || (r =? 127) then
    str "\x" ++ [lowerhex ((r mod 256) / 16); lowerhex (r mod 16)]
  else if negb (utf8.ValidRune r) then str "\u" ++ hex4 utf8.RuneError
  else if r <? 65536 then str "\u" ++ hex4 r
  else str "\U" ++ hex8 r.

(** The loop of [appendQuotedWith]: what is written between the two
    quotes. *)
Fixpoint quoteBody (printTable : Z -> bool) (skip : nat) (s : gostring)
  : gostring :=
  match s with
  | [] => []
  | c :: t =>
    match skip with
    | S k => quoteBody printTable k t
    | O =>
      let s0 := byteVal c in
      let (r, width) :=
        if s0 >=? utf8.RuneSelf then utf8.DecodeRuneInString s
        else (s0, 1%nat) in
      if (width =? 1)%nat && (r =? utf8.RuneError) then
        str "\x" ++ [lowerhex (s0 / 16); lowerhex (s0 mod 16)]
            ++ quoteBody printTable 0 t
      else
        appendEscapedRune printTable r ++ quoteBody printTable (width - 1) t
    end
  end.

Definition Quote (printTable : Z -> bool) (s : gostring) : gostring :=
  dquote :: quoteBody printTable 0 s ++ [dquote].

End strconv.

(** ** encoding/json: decoding one string value *)

Module json.

Definition hexVal (c : ascii) : option Z :=
  let b := byteVal c in
  if (48 <=? b) && (b <=? 57) then Some (b - 48)
  else if (97 <=? b) && (b <=? 102) then Some (b - 97 + 10)
  else if (65 <=? b) && (b <=? 70) then Some (b - 65 + 10)
  else None.

(** [getu4]: the code unit of a [\uXXXX] escape at the head of [s]. *)
Definition getu4 (s : gostring) : option Z :=
  match s with
  | b :: u :: h1 :: h2 :: h3 :: h4 :: _ =>
    if Ascii.eqb b backslash && Ascii.eqb u "u"%char then
      match hexVal h1, hexVal h2, hexVal h3, hexVal h4 with
      | Some a, Some b, Some c, Some d =>
        Some (((a * 16 + b) * 16 + c) * 16 + d)
      | _, _, _, _ => None
      end
    else None
  | _ => None
  end.

(** [utf16.DecodeRune]. *)
Definition utf16DecodeRune (r1 r2 : Z) : Z :=
  if (55296 <=? r1) && (r1 <? 56320) && (56320 <=? r2) && (r2 <? 57344)
  then (r1 - 55296) * 1024 + (r2 - 56320) + 65536
  else utf8.RuneError.

Definition simpleEscape (e : ascii) : option ascii :=
  let b := byteVal e in
  if (b =? 34) || (b =? 92) || (b =? 47) then Some e
  else if b =? 98 then Some (byteOf 8)
  else if b =? 102 then Some (byteOf 12)
  else if b =? 110 then Some (byteOf 10)
  else if b =? 114 then Some (byteOf 13)
  else if b =? 116 then Some (byteOf 9)
  else None.

Definition emit (out : gostring) (rest : option gostring) : option gostring :=
  option_map (app out) rest.

(** The body of a string literal, unquoted as the scanner and
    [unquoteBytes] do together: [None] where the scanner rejects the
    literal (a control character, an escape that JSON does not have) or
    where the body holds a raw quote. *)
Fixpoint unquoteBody (skip : nat) (s : gostring) : option gostring :=
  match s with
  | [] => Some []
  | c :: t =>
    match skip with
    | S k => unquoteBody k t
    | O =>
      let b := byteVal c in
      if b =? 92 then
        match t with
        | [] => None
        | e :: _ =>
          if byteVal e =? 117 then
            match getu4 s with
            | None => None
            | Some rr =>
              if utf8.isSurrogate rr then
                let dec :=
                  match getu4 (skipn 6 s) with
                  | Some rr1 => utf16DecodeRune rr rr1
                  | None => utf8.RuneError
                  end in
                if negb (dec =? utf8.RuneError)
                then emit (utf8.EncodeRune dec) (unquoteBody 11 t)
                else emit (utf8.EncodeRune utf8.RuneError) (unquoteBody 5 t)
              else emit (utf8.EncodeRune rr) (unquoteBody 5 t)
            end
          else
            match simpleEscape e with
            | Some x => emit [x] (unquoteBody 1 t)
            | None => None
            end
        end
      else if (b =? 34) || (b <? 32) then None
      else if b <? utf8.RuneSelf then emit [c] (unquoteBody 0 t)
      else
        let (rr, size) := utf8.DecodeRuneInString s in
        emit (utf8.EncodeRune rr) (unquoteBody (size - 1) t)
    end
  end.

(** [unquoteBytes]: a literal with its two quotes. *)
Definition unquote (lit : gostring) : option gostring :=
  match lit with
  | q :: rest =>
    if Ascii.eqb q dquote && (2 <=? List.length lit)%nat
       && Ascii.eqb (last lit zero) dquote
    then unquoteBody 0 (removelast rest)
    else None
  | [] => None
  end.

End json.

(** ** The text normalizer: [cleanupContent] *)

(** Go's [error]: [None] is [nil], otherwise the message. *)
Definition error := option gostring.

(** [unescapeUnicodeJSON]: a document with the one key [content], whose
    value is the literal [strconv.Quote s], is unmarshalled into a struct
    with one string field; its value is the unquoted literal.  The text of a syntax error of [encoding/json] is not
    modelled: no caller reads it. *)
Definition jsonSyntaxError : gostring := str "invalid character in string literal".

Definition unescapeUnicodeJSON (printTable : Z -> bool) (s : gostring)
  : gostring * error :=
  match json.unquote (strconv.Quote printTable s) with
  | Some content => (content, None)
  | None => (s, Some jsonSyntaxError)
  end.

(** The map literal [htmlReplacements]. *)
Definition htmlReplacements : list (gostring * gostring) :=
  [ (str "&nbsp;", str " ");
    (str "&amp;", str "&");
    (str "&lt;", str "<");
    (str "&gt;", str ">");
    (str "&quot;", [dquote]);
    (str "&#39;", str "'");
    (str "&apos;", str "'") ].

(** A [range] over a Go map visits the entries in an order the language
    leaves open: [order] is the order of one such visit. *)
Definition mapOrder (order : list (gostring * gostring)) : Prop :=
  Permutation htmlReplacements order.

Definition replaceEntities (order : list (gostring * gostring))
  (content : gostring) : gostring :=
  fold_left (fun c kv => strings.ReplaceAll c (fst kv) (snd kv)) order content.

Definition stripQuotes (content : gostring) : gostring :=
  if (2 <? List.length content)%nat
     && Ascii.eqb (hd zero content) dquote
     && Ascii.eqb (last content zero) dquote
  then removelast (tl content)
  else content.

Definition cleanupContent (printTable : Z -> bool)
  (order : list (gostring * gostring)) (content : gostring) : gostring :=
  let content := stripQuotes content in
  let content := strings.ReplaceAll content [backslash; dquote] [dquote] in
  let content :=
    match unescapeUnicodeJSON printTable content with
    | (result, None) => result
    | (_, Some _) => content
    end in
  replaceEntities order content.

(** ** The upstream API, as the gateway sees it *)

(** Time is an instant in nanoseconds; so is a duration. *)
Definition Minute : Z := 60 * 1000000000.
Definition Hour : Z := 60 * Minute.

Definition StatusBadRequest : Z := 400.
Definition StatusUnauthorized : Z := 401.
Definition StatusInternalServerError : Z := 500.

(** What [io.ReadAll] and [json.Unmarshal] make of the body of a response to
    the token query: the body cannot be read, it is not the JSON of the
    response struct, or it decodes, [data.tokens.accessToken] being the
    string given (empty when the field is missing). *)
Inductive TokenBody :=
| TokenUnreadable (err : gostring)
| TokenMalformed (err : gostring)
| TokenDecoded (AccessToken : gostring).

Inductive TokenReply :=
| TokenSendError (err : gostring)
| TokenHTTP (StatusCode : Z) (body : TokenBody).

Record MappingField := {
  Key : gostring;
  Type_ : gostring;
  Value : gostring
}.

Record PostResponse := {
  MappingFields : list MappingField;
  postTitle : gostring
}.

Inductive PostBody :=
| PostUnreadable (err : gostring)
| PostMalformed (err : gostring)
| PostDecoded (postResp : PostResponse).

Inductive PostReply :=
| PostSendError (err : gostring)
| PostHTTP (StatusCode : Z) (body : PostBody).

(** The upstream: its answer to the n-th token query, its answer to the n-th
    post query (which carries the bearer token and the post id), and the
    time the n-th request of either kind takes. *)
Record Upstream := {
  tokenReply : nat -> TokenReply;
  postReply : nat -> gostring -> gostring -> PostReply;
  latency : nat -> N
}.

(** ** The token manager *)

Record TokenManager := {
  accessToken : gostring;
  expiry : Z;
  networkDomain : gostring
}.

(** The state a request runs in: the global [tokenManager], the clock that
    [time.Now] reads, and how many requests of each kind have been sent
    upstream.  One request runs at a time; two [GetToken] calls that share
    the mutex are modelled below, on the same state. *)
Record World := {
  tm : TokenManager;
  clock : Z;
  tokenCalls : nat;
  postCalls : nat
}.

Definition elapsed (up : Upstream) (w : World) : Z :=
  Z.of_N (latency up (tokenCalls w + postCalls w)).

Definition afterTokenCall (up : Upstream) (w : World) : World :=
  {| tm := tm w; clock := clock w + elapsed up w;
     tokenCalls := S (tokenCalls w); postCalls := postCalls w |}.

Definition afterPostCall (up : Upstream) (w : World) : World :=
  {| tm := tm w; clock := clock w + elapsed up w;
     tokenCalls := tokenCalls w; postCalls := S (postCalls w) |}.

Definition store (w : World) (token : gostring) (exp : Z) : World :=
  {| tm := {| accessToken := token; expiry := exp;
              networkDomain := networkDomain (tm w) |};
     clock := clock w; tokenCalls := tokenCalls w; postCalls := postCalls w |}.

(** [RefreshToken].  Marshalling the constant query and building the request
    cannot fail and are left out, as is the log line. *)
Definition RefreshToken (up : Upstream) (w : World) : error * World :=
  let w1 := afterTokenCall up w in
  match tokenReply up (tokenCalls w) with
  | TokenSendError err =>
    (Some (str "error sending token request: " ++ err), w1)
  | TokenHTTP _ (TokenUnreadable err) =>
    (Some (str "error reading token response: " ++ err), w1)
  | TokenHTTP _ (TokenMalformed err) =>
    (Some (str "error parsing token response: " ++ err), w1)
  | TokenHTTP _ (TokenDecoded token) =>
    if streq token [] then (Some (str "no token returned from API"), w1)
    else (None, store w1 token (clock w1 + 24 * Hour))
  end.

(** [time.Now().Add(5*time.Minute).After(tm.expiry)]. *)
Definition nearExpiry (w : World) : bool :=
  expiry (tm w) <? clock w + 5 * Minute.

Definition GetToken (up : Upstream) (w : World) : (gostring * error) * World :=
  if streq (accessToken (tm w)) [] || nearExpiry w then
    match RefreshToken up w with
    | (Some err, w') => (([], Some err), w')
    | (None, w') => ((accessToken (tm w'), None), w')
    end
  else ((accessToken (tm w), None), w).

(** ** The upstream client *)

(** The loop over [MappingFields]: the value of the first field whose key is
    [content], the empty string when there is none. *)
Fixpoint findContent (fields : list MappingField) : gostring :=
  match fields with
  | [] => []
  | field :: rest =>
    if streq (Key field) (str "content") then Value field
    else findContent rest
  end.

(** [fetchContentFromBetterMode].  The function calls itself after a
    refresh; [fuel] bounds the depth of these calls, and [None] is a run
    that needs more. *)
Fixpoint fetchContentFromBetterMode (fuel : nat) (up : Upstream)
  (postID : gostring) (w : World)
  : option ((gostring * gostring * error) * World) :=
  match fuel with
  | O => None
  | S fuel' =>
    match GetToken up w with
    | ((_, Some err), w1) =>
      Some (([], [], Some (str "error getting access token: " ++ err)), w1)
    | ((token, None), w1) =>
      let w2 := afterPostCall up w1 in
      match postReply up (postCalls w1) token postID with
      | PostSendError err =>
        Some (([], [], Some (str "error sending request: " ++ err)), w2)
      | PostHTTP status body =>
        if status =? StatusUnauthorized then
          match RefreshToken up w2 with
          | (Some err, w3) =>
            Some (([], [], Some (str "failed to refresh token: " ++ err)), w3)
          | (None, w3) => fetchContentFromBetterMode fuel' up postID w3
          end
        else
          match body with
          | PostUnreadable err =>
            Some (([], [], Some (str "error reading response: " ++ err)), w2)
          | PostMalformed err =>
            Some (([], [], Some (str "error parsing response: " ++ err)), w2)
          | PostDecoded postResp =>
            let title := postTitle postResp in
            let content := findContent (MappingFields postResp) in
            if streq content [] then
              Some (([], title, Some (str "content field not found")), w2)
            else Some ((content, title, None), w2)
          end
      end
    end
  end.

(** ** The gateway: [POST /content] *)

Record ContentRequest := {
  reqPostID : gostring;
  reqFormat : gostring
}.

Record ContentResponse := {
  Content : gostring;
  Format : gostring;
  PostID : gostring;
  Title : gostring;
  CharCount : Z
}.

(** What the handler writes: [http.Error w msg code], or [render.JSON] of a
    response (status 200). *)
Inductive HttpResponse :=
| httpError (msg : gostring) (code : Z)
| renderJSON (response : ContentResponse).

Definition statusOf (r : HttpResponse) : Z :=
  match r with
  | httpError _ code => code
  | renderJSON _ => 200
  end.

(** The format check of [getContent]: the default for an empty [Format],
    [None] where the handler answers that the format must be html or text. *)
Definition chooseFormat (format : gostring) : option gostring :=
  if streq format [] then Some (str "html")
  else if negb (streq format (str "html")) && negb (streq format (str "text"))
       then None
       else Some format.

(** The body of a request, as [Decode] reads it: not the JSON of a
    [ContentRequest] (a syntax error, a field that is not a string), or an
    object in which each of the two fields is given as a string, or is not
    given. *)
Inductive RequestBody :=
| Malformed
| Object (post_id format : option gostring).

(** A field that the body does not give keeps the zero value of its type. *)
Definition fieldValue (v : option gostring) : gostring :=
  match v with
  | Some s => s
  | None => []
  end.

Definition Decode (body : RequestBody) : option ContentRequest :=
  match body with
  | Malformed => None
  | Object post_id format =>
    Some {| reqPostID := fieldValue post_id; reqFormat := fieldValue format |}
  end.

(** [getContent]. *)
Definition getContent (fuel : nat) (up : Upstream) (printTable : Z -> bool)
  (order : list (gostring * gostring)) (body : RequestBody)
  (w : World) : option (HttpResponse * World) :=
  match Decode body with
  | None => Some (httpError (str "Invalid request body") StatusBadRequest, w)
  | Some req =>
    if streq (reqPostID req) [] then
      Some (httpError (str "Post ID is required") StatusBadRequest, w)
    else
      match chooseFormat (reqFormat req) with
      | None =>
        Some (httpError (str "Format must be 'html' or 'text'")
                        StatusBadRequest, w)
      | Some format =>
        match fetchContentFromBetterMode fuel up (reqPostID req) w with
        | None => None
        | Some ((_, _, Some err), w') =>
          Some (httpError (str "Error fetching content: " ++ err)
                          StatusInternalServerError, w')
        | Some ((content, title, None), w') =>
          let processedContent := cleanupContent printTable order content in
          let processedContent :=
            if streq format (str "text") then stripHTMLTags processedContent
            else processedContent in
          Some (renderJSON
                  {| Content := processedContent;
                     Format := format;
                     PostID := reqPostID req;
                     Title := title;
                     CharCount := Z.of_nat (List.length processedContent) |},
                w')
        end
      end
  end.

(** ** The token manager at start-up, and the two token endpoints *)

(** Instants are nanoseconds since the Unix epoch.  The zero [time.Time],
    which a [TokenManager] literal leaves in [expiry], is January 1 of the
    year 1. *)
Definition zeroTime : Z := -62135596800 * 1000000000.

(** The state in which [main] calls [NewTokenManager] at the instant [now]:
    the manager as the struct literal builds it, nothing sent yet. *)
Definition startWorld (domain : gostring) (now : Z) : World :=
  {| tm := {| accessToken := []; expiry := zeroTime; networkDomain := domain |};
     clock := now; tokenCalls := 0; postCalls := 0 |}.

(** [NewTokenManager]: the error of the first refresh is logged and
    dropped. *)
Definition NewTokenManager (up : Upstream) (domain : gostring) (now : Z)
  : World :=
  snd (RefreshToken up (startWorld domain now)).

(** What [handleTokenRefresh] writes: [http.Error], or the JSON of the map
    with the keys [status] and [message]. *)
Inductive RefreshResponse :=
| refreshError (msg : gostring) (code : Z)
| refreshJSON (status message : gostring).

Definition handleTokenRefresh (up : Upstream) (w : World)
  : RefreshResponse * World :=
  match RefreshToken up w with
  | (Some err, w') =>
    (refreshError (str "Failed to refresh token: " ++ err)
                  StatusInternalServerError, w')
  | (None, w') =>
    (refreshJSON (str "success") (str "Token refreshed successfully"), w')
  end.

(** [time.Duration] is a 64-bit count of nanoseconds; [Time.Sub] returns the
    largest or the smallest duration where the difference does not fit. *)
Definition minDuration : Z := - 2 ^ 63.
Definition maxDuration : Z := 2 ^ 63 - 1.

Definition Sub (t u : Z) : Z :=
  if t - u <? minDuration then minDuration
  else if maxDuration <? t - u then maxDuration
  else t - u.

(** The map [handleTokenStatus] renders.  [expires_in] is the duration
    [time.Until(expiry)]; the text [Duration.String] makes of it is not
    modelled. *)
Record TokenStatus := {
  status : gostring;
  token_preview : gostring;
  status_expiry : Z;
  is_valid : bool;
  expires_in : Z
}.

Definition tokenPreview (token : gostring) : gostring :=
  if (10 <? List.length token)%nat then firstn 10 token ++ str "..." else [].

Definition handleTokenStatus (w : World) : TokenStatus :=
  {| status := str "success";
     token_preview := tokenPreview (accessToken (tm w));
     status_expiry := expiry (tm w);
     is_valid := clock w <? expiry (tm w);
     expires_in := Sub (expiry (tm w)) (clock w) |}.

(** ** Vocabulary of the statements *)

(** [sub] occurs in [s]. *)
Definition occurs (sub s : gostring) : Prop :=
  exists pre post, s = pre ++ sub ++ post.

(** The keys of [htmlReplacements]. *)
Definition entities : list gostring := map fst htmlReplacements.

(** No quote, no backslash and no entity: [cleanupContent] has nothing to
    do. *)
Definition settled (s : gostring) : Prop :=
  ~ In dquote s /\ ~ In backslash s /\ forall e, In e entities -> ~ occurs e s.

(** What [DecodeRuneInString] returns: nothing on the empty string, an ASCII
    byte, [RuneError] of width 1 on a byte that starts no valid sequence, or
    a valid rune whose encoding is the head of the string. *)
Inductive decoded (s : gostring) (r : Z) (w : nat) : Prop :=
| decoded_empty : s = [] -> r = utf8.RuneError -> w = 0%nat -> decoded s r w
| decoded_ascii c t :
    s = c :: t -> byteVal c < 128 -> r = byteVal c -> w = 1%nat ->
    decoded s r w
| decoded_invalid c t :
    s = c :: t -> 128 <= byteVal c -> r = utf8.RuneError -> w = 1%nat ->
    decoded s r w
| decoded_multi c p q :
    s = (c :: p) ++ q -> utf8.EncodeRune r = c :: p ->
    List.length (c :: p) = w -> (2 <= w)%nat ->
    128 <= byteVal c -> 128 <= r -> utf8.ValidRune r = true ->
    (forall q', utf8.DecodeRuneInString ((c :: p) ++ q') = (r, w)) ->
    decoded s r w.

(** ** Sample inputs *)

(** A print table that holds no rune. *)
Definition noPrint (_ : Z) : bool := false.

Definition contentField (v : gostring) : MappingField :=
  {| Key := str "content"; Type_ := str "html"; Value := v |}.

Definition postOK (content title : gostring) : PostReply :=
  PostHTTP 200 (PostDecoded {| MappingFields := [contentField content];
                               postTitle := title |}).

Definition unauthorized : PostReply :=
  PostHTTP StatusUnauthorized (PostUnreadable []).

Definition tokenNo (n : nat) : gostring :=
  str "token-" ++ [byteOf (48 + Z.of_nat n)].

(** An upstream that issues the tokens [token-0], [token-1], ... and answers
    the first [n] post queries with status 401 before it serves the post. *)
Definition rejecting (n : nat) (content : gostring) : Upstream :=
  {| tokenReply := fun k => TokenHTTP 200 (TokenDecoded (tokenNo k));
     postReply := fun k _ _ => if (k <? n)%nat then unauthorized
                               else postOK content (str "Title");
     latency := fun _ => 1000%N |}.

(** An upstream that issues tokens and answers every post query with status
    401. *)
Definition rejectAll : Upstream :=
  {| tokenReply := fun _ => TokenHTTP 200 (TokenDecoded (str "guest-token"));
     postReply := fun _ _ _ => unauthorized;
     latency := fun _ => 1000%N |}.

(** An upstream whose token endpoint cannot be reached. *)
Definition unreachable : Upstream :=
  {| tokenReply := fun _ => TokenSendError (str "dial tcp: connection refused");
     postReply := fun _ _ _ => PostSendError (str "dial tcp: connection refused");
     latency := fun _ => 1000%N |}.

(** The state after [NewTokenManager] when the first refresh has failed. *)
Definition world0 : World :=
  {| tm := {| accessToken := []; expiry := 0;
              networkDomain := str "www.gpters.org" |};
     clock := 1000; tokenCalls := 0; postCalls := 0 |}.

Definition holding (token : gostring) (exp now : Z) : World :=
  {| tm := {| accessToken := token; expiry := exp;
              networkDomain := str "www.gpters.org" |};
     clock := now; tokenCalls := 1; postCalls := 0 |}.

(** A token that expires in one hour, and one that expires in five minutes
    to the nanosecond. *)
Definition worldFresh : World := holding (str "stored") (1000 + Hour) 1000.
Definition worldBoundary : World :=
  holding (str "stored") (1000 + 5 * Minute) 1000.

Definition hangul : gostring := str "한글".

Definition sample : gostring :=
  str "<p>1 &lt; 2&nbsp;&gt; it&#39;s &apos;so&apos;</p>".

(** ** Further vocabulary and sample inputs *)

(** Time passes between two requests. *)
Definition wait (d : N) (w : World) : World :=
  {| tm := tm w; clock := clock w + Z.of_N d;
     tokenCalls := tokenCalls w; postCalls := postCalls w |}.

(** The states the server goes through: it starts with [NewTokenManager],
    and then time passes, or one of the three handlers runs to its end. *)
Inductive reachable (up : Upstream) : World -> Prop :=
| reach_start domain now : reachable up (NewTokenManager up domain now)
| reach_wait d w : reachable up w -> reachable up (wait d w)
| reach_refresh w :
    reachable up w -> reachable up (snd (handleTokenRefresh up w))
| reach_content fuel printTable order body w resp w' :
    reachable up w ->
    getContent fuel up printTable order body w = Some (resp, w') ->
    reachable up w'.

(** The stored credential is the empty one of the struct literal, or a token
    that one of the token queries sent so far was answered with, due to
    expire at most 24 hours from now. *)
Definition credentialOK (up : Upstream) (w : World) : Prop :=
  (accessToken (tm w) = [] /\ expiry (tm w) = zeroTime)
  \/ (accessToken (tm w) <> []
      /\ expiry (tm w) <= clock w + 24 * Hour
      /\ exists k st, (k < tokenCalls w)%nat
                      /\ tokenReply up k
                         = TokenHTTP st (TokenDecoded (accessToken (tm w)))).

(** The upstream [up] with other status codes: [f] on the answers to post
    queries, [g] on the answers to token queries. *)
Definition restatusPost (f : Z -> Z) (r : PostReply) : PostReply :=
  match r with
  | PostSendError err => PostSendError err
  | PostHTTP st body => PostHTTP (f st) body
  end.

Definition restatusToken (g : Z -> Z) (r : TokenReply) : TokenReply :=
  match r with
  | TokenSendError err => TokenSendError err
  | TokenHTTP st body => TokenHTTP (g st) body
  end.

Definition restatus (f g : Z -> Z) (up : Upstream) : Upstream :=
  {| tokenReply := fun k => restatusToken g (tokenReply up k);
     postReply := fun k token postID =>
                    restatusPost f (postReply up k token postID);
     latency := latency up |}.

(** [utf8.ValidString]: no step of a loop over the runes of [s] meets a byte
    that starts no valid sequence. *)
Fixpoint validString (skip : nat) (s : gostring) : bool :=
  match s with
  | [] => true
  | _ :: t =>
    match skip with
    | S k => validString k t
    | O =>
      let (r, w) := utf8.DecodeRuneInString s in
      negb ((r =? utf8.RuneError) && (w =? 1)%nat) && validString (w - 1) t
    end
  end.

(** One pass over [s] that replaces, at each position, the entry of [tbl]
    whose key starts there. *)
Fixpoint lookupPrefix (tbl : list (gostring * gostring)) (s : gostring)
  : option (gostring * gostring) :=
  match tbl with
  | [] => None
  | kv :: tbl' =>
    if strings.HasPrefix s (fst kv) then Some kv else lookupPrefix tbl' s
  end.

Fixpoint replacePass (tbl : list (gostring * gostring)) (skip : nat)
  (s : gostring) : gostring :=
  match s with
  | [] => []
  | c :: t =>
    match skip with
    | S k => replacePass tbl k t
    | O =>
      match lookupPrefix tbl s with
      | Some kv => snd kv ++ replacePass tbl (List.length (fst kv) - 1) t
      | None => c :: replacePass tbl 0 t
      end
    end
  end.

Definition ampEntry : gostring * gostring := (str "&amp;", str "&").
Definition ltEntry : gostring * gostring := (str "&lt;", str "<").

(** The entries of [htmlReplacements] other than [ampEntry]. *)
Definition plainEntries : list (gostring * gostring) :=
  [ (str "&nbsp;", str " ");
    (str "&lt;", str "<");
    (str "&gt;", str ">");
    (str "&quot;", [dquote]);
    (str "&#39;", str "'");
    (str "&apos;", str "'") ].

(** An upstream that issues a JWT-like token and serves every post. *)
Definition serving (content : gostring) : Upstream :=
  {| tokenReply := fun _ => TokenHTTP 200 (TokenDecoded (str "eyJhbGciOiJIUzI1NiJ9.guest"));
     postReply := fun _ _ _ => postOK content (str "Title");
     latency := fun _ => 1000%N |}.

(** An upstream that answers every request with an error status, the body
    of the token answer holding a token all the same. *)
Definition erroring : Upstream :=
  {| tokenReply := fun _ => TokenHTTP 503 (TokenDecoded (str "eyJhbGciOiJIUzI1NiJ9.guest"));
     postReply := fun _ _ _ =>
       PostHTTP 500 (PostDecoded {| MappingFields := [contentField sample];
                                    postTitle := str "Title" |});
     latency := fun _ => 5%N |}.

(** Every status other than 401 read as 200, every 401 as it is. *)
Definition okUnless401 (st : Z) : Z :=
  if st =? StatusUnauthorized then StatusUnauthorized else 200.

Definition plainText : gostring := str "한글 text, 1 & 2".

(** No byte that an entry of [plainEntries] writes is in [q]. *)
Definition untouched (q : gostring) : Prop :=
  forall kv, In kv plainEntries -> forall c, In c (snd kv) -> ~ In c q.

Definition plainTable (l : list (gostring * gostring)) : Prop :=
  forall kv, In kv l -> In kv plainEntries.

Definition notAmp (kv : gostring * gostring) : bool :=
  negb (streq (fst kv) (str "&amp;")).

(** [x] is visited before [y] in [order]. *)
Definition visitedBefore (x y : gostring * gostring)
  (order : list (gostring * gostring)) : Prop :=
  exists a b c, order = a ++ x :: b ++ y :: c.

(** ** Two [GetToken] calls on the mutex *)

(** [sync.RWMutex], as far as [GetToken] and [RefreshToken] use it: how many
    goroutines hold the read lock, and whether the write lock is held.  A
    call that cannot go on is [None]: the goroutine waits.  The order in
    which waiting goroutines are let in is left open. *)
Module sync.

Record RWMutex := {
  readers : nat;
  writer : bool
}.

Definition unlocked : RWMutex := {| readers := 0; writer := false |}.

Definition RLock (m : RWMutex) : option RWMutex :=
  if writer m then None
  else Some {| readers := S (readers m); writer := false |}.

Definition RUnlock (m : RWMutex) : RWMutex :=
  {| readers := pred (readers m); writer := writer m |}.

Definition Lock (m : RWMutex) : option RWMutex :=
  if writer m || negb (readers m =? 0)%nat then None
  else Some {| readers := 0; writer := true |}.

Definition Unlock (m : RWMutex) : RWMutex :=
  {| readers := readers m; writer := false |}.

End sync.

(** Where a goroutine is in [GetToken]: the line of main.go it runs next.
    [atLock], [atRequest] and [atUnlock] are in [RefreshToken], called at
    line 61; [atRead] is reached from the test at line 59 when the token is
    fresh, and from line 65 after a refresh. *)
Inductive Point :=
| atRLock
| atTest
| atRUnlock
| atLock
| atRequest
| atUnlock (err : error)
| atRLockAgain
| atRead
| atRUnlockLast (token : gostring)
| returned (token : gostring) (err : error).

(** One step of a goroutine in [GetToken]: line 57, the test of line 59,
    line 60, line 74, the body of [RefreshToken] under the write lock (lines
    76 to 141), the deferred [Unlock] with the test of line 62, line 65,
    line 67 and line 68. *)
Definition stepGetToken (up : Upstream) (p : Point) (m : sync.RWMutex)
  (w : World) : option (Point * sync.RWMutex * World) :=
  match p with
  | atRLock =>
    match sync.RLock m with
    | Some m' => Some (atTest, m', w)
    | None => None
    end
  | atTest =>
    if streq (accessToken (tm w)) [] || nearExpiry w
    then Some (atRUnlock, m, w)
    else Some (atRead, m, w)
  | atRUnlock => Some (atLock, sync.RUnlock m, w)
  | atLock =>
    match sync.Lock m with
    | Some m' => Some (atRequest, m', w)
    | None => None
    end
  | atRequest =>
    let (err, w') := RefreshToken up w in Some (atUnlock err, m, w')
  | atUnlock (Some err) => Some (returned [] (Some err), sync.Unlock m, w)
  | atUnlock None => Some (atRLockAgain, sync.Unlock m, w)
  | atRLockAgain =>
    match sync.RLock m with
    | Some m' => Some (atRead, m', w)
    | None => None
    end
  | atRead => Some (atRUnlockLast (accessToken (tm w)), m, w)
  | atRUnlockLast token => Some (returned token None, sync.RUnlock m, w)
  | returned _ _ => None
  end.

(** Two goroutines in [GetToken], on one token manager and one mutex. *)
Inductive Caller := callerA | callerB.

Record Calls := {
  shared : World;
  mutex : sync.RWMutex;
  pointA : Point;
  pointB : Point
}.

Definition pointOf (c : Caller) (s : Calls) : Point :=
  match c with
  | callerA => pointA s
  | callerB => pointB s
  end.

Definition moved (c : Caller) (r : Point * sync.RWMutex * World) (s : Calls)
  : Calls :=
  let '(p, m, w) := r in
  match c with
  | callerA => {| shared := w; mutex := m; pointA := p; pointB := pointB s |}
  | callerB => {| shared := w; mutex := m; pointA := pointA s; pointB := p |}
  end.

Definition step (up : Upstream) (c : Caller) (s : Calls) : option Calls :=
  match stepGetToken up (pointOf c s) (mutex s) (shared s) with
  | Some r => Some (moved c r s)
  | None => None
  end.

(** What the scheduler and the clock do next: a goroutine runs one step (it
    stays where it is when it waits for the mutex, or has returned), or time
    passes. *)
Inductive Event :=
| run (c : Caller)
| tick (d : N).

Definition exec (up : Upstream) (s : Calls) (ev : Event) : Calls :=
  match ev with
  | run c =>
    match step up c s with
    | Some s' => s'
    | None => s
    end
  | tick d =>
    {| shared := wait d (shared s); mutex := mutex s;
       pointA := pointA s; pointB := pointB s |}
  end.

Definition schedule (up : Upstream) (evs : list Event) (s : Calls) : Calls :=
  fold_left (exec up) evs s.

(** Two calls of [GetToken] that have both just started. *)
Definition twoCalls (w : World) : Calls :=
  {| shared := w; mutex := sync.unlocked;
     pointA := atRLock; pointB := atRLock |}.










(* ================================================================= *)
(** * Part II: lemmas and theorems *)
(* ================================================================= *)

Ltac zlia := Z.div_mod_to_equations; lia.

(** ** Bytes *)

Lemma byteVal_range (c : ascii) : 0 <= byteVal c < 256.
Proof.
  unfold byteVal. pose proof (N_ascii_bounded c). lia.
Qed.

Lemma byteVal_byteOf (z : Z) : 0 <= z < 256 -> byteVal (byteOf z) = z.
Proof.
  intros H. unfold byteVal, byteOf.
  rewrite N_ascii_embedding by lia. lia.
Qed.

Lemma byteOf_byteVal (c : ascii) : byteOf (byteVal c) = c.
Proof.
  unfold byteVal, byteOf. rewrite N2Z.id. apply ascii_N_embedding.
Qed.

(** ** utf8 *)

Lemma first_lead (b : Z) (sz : nat) (lo hi : Z) :
  utf8.first b = utf8.lead sz lo hi ->
  194 <= b <= 244 /\ 128 <= lo /\ hi <= 191
  /\ ((sz = 2%nat /\ b < 224) \/ (sz = 3%nat /\ 224 <= b < 240)
      \/ (sz = 4%nat /\ 240 <= b)).
Proof.
  unfold utf8.first, utf8.locb, utf8.hicb.
  repeat match goal with
  | |- context [if ?c then _ else _] => destruct c eqn:?
  end; intros H; try discriminate; injection H as <- <- <-; lia.
Qed.

Lemma EncodeRune_bytes (r : Z) (c : ascii) :
  In c (utf8.EncodeRune r) ->
  (byteVal c = r /\ 0 <= r <= 127) \/ 128 <= byteVal c.
Proof.
  unfold utf8.EncodeRune, utf8.encode3, utf8.ValidRune, utf8.isSurrogate,
    utf8.MaxRune, utf8.RuneError.
  repeat match goal with
  | |- context [if ?c then _ else _] => destruct c eqn:?
  end; cbn [In]; intros H;
  repeat match goal with
  | H : _ \/ _ |- _ => destruct H as [H|H]
  | H : False |- _ => destruct H
  end; subst c.
  all: try (left; rewrite byteVal_byteOf by lia; lia).
  all: right; rewrite byteVal_byteOf; zlia.
Qed.

Ltac break_match :=
  repeat match goal with
  | |- context [match ?x with _ => _ end] => destruct x eqn:?
  | H : context [match ?x with _ => _ end] |- _ => destruct x eqn:?
  end.

Lemma decode_width (s : gostring) (r : Z) (w : nat) :
  utf8.DecodeRuneInString s = (r, w) -> s <> [] ->
  (1 <= w <= List.length s)%nat.
Proof.
  unfold utf8.DecodeRuneInString. intros H Hs.
  break_match; try contradiction; injection H as <- <-; cbn [List.length]; lia.
Qed.

(** The first rune of a prefix is the first rune of the string, or the
    prefix stops short of it. *)
Lemma decode_prefix (p q : gostring) :
  utf8.DecodeRuneInString p = utf8.DecodeRuneInString (p ++ q)
  \/ fst (utf8.DecodeRuneInString p) = utf8.RuneError.
Proof.
  destruct p as [|c0 p]; [right; reflexivity|].
  cbn [app]. unfold utf8.DecodeRuneInString.
  destruct (utf8.first (byteVal c0)) as [| |sz lo hi] eqn:Ef; auto.
  apply first_lead in Ef as (_ & _ & _ & Hsz).
  destruct p as [|c1 p]; [right; destruct (_ <? _)%nat; reflexivity|].
  destruct p as [|c2 p].
  { destruct Hsz as [(-> & _)|[(-> & _)|(-> & _)]]; cbn; auto;
      destruct (negb _); auto. }
  destruct p as [|c3 p].
  { destruct Hsz as [(-> & _)|[(-> & _)|(-> & _)]]; cbn; auto;
    repeat (destruct (negb _); auto). }
  destruct Hsz as [(-> & _)|[(-> & _)|(-> & _)]]; cbn; auto.
Qed.

(** ** The scan of stripHTMLTags writes no angle bracket *)

Lemma scanTags_bytes (html : gostring) :
  forall skip inTag c,
    In c (scanTags skip inTag html) -> byteVal c <> 60 /\ byteVal c <> 62.
Proof.
  induction html as [|c0 t IH]; intros skip inTag c; [intros []|].
  cbn [scanTags]. destruct skip as [|k]; [|apply IH].
  destruct (utf8.DecodeRuneInString (c0 :: t)) as [r w].
  unfold lt_rune, gt_rune.
  destruct (r =? 60) eqn:E1; [apply IH|].
  destruct (r =? 62) eqn:E2.
  { intros [<-|H]; [vm_compute; split; discriminate|]. eapply IH, H. }
  destruct inTag; cbn [negb]; [apply IH|].
  intros H. apply in_app_or in H as [H|H]; [|eapply IH, H].
  apply EncodeRune_bytes in H. lia.
Qed.

(** ** strings *)

Lemma HasPrefix_true (s p : gostring) :
  strings.HasPrefix s p = true <-> exists rest, s = p ++ rest.
Proof.
  revert s; induction p as [|x p IH]; intros s; cbn [strings.HasPrefix].
  - split; [|reflexivity]. intros _. exists s. reflexivity.
  - destruct s as [|c s].
    + split; [discriminate|]. intros (rest & H). discriminate.
    + rewrite andb_true_iff, Ascii.eqb_eq, IH. split.
      * intros (-> & rest & ->). exists rest. reflexivity.
      * intros (rest & H). injection H as -> ->. split; [reflexivity|].
        exists rest. reflexivity.
Qed.

Lemma occurs_cons (sub s : gostring) (c : ascii) :
  occurs sub (c :: s) <-> strings.HasPrefix (c :: s) sub = true \/ occurs sub s.
Proof.
  split.
  - intros (pre & post & H). destruct pre as [|x pre].
    + left. apply HasPrefix_true. exists post. exact H.
    + right. injection H as _ ->. exists pre, post. reflexivity.
  - intros [H|(pre & post & ->)].
    + apply HasPrefix_true in H as (rest & ->). exists [], rest. reflexivity.
    + exists (c :: pre), post. reflexivity.
Qed.

Lemma occurs_nil (sub : gostring) : occurs sub [] <-> sub = [].
Proof.
  split.
  - intros (pre & post & H). symmetry in H.
    apply app_eq_nil in H as (_ & H). now apply app_eq_nil in H.
  - intros ->. exists [], []. reflexivity.
Qed.

Lemma Contains_true (s sub : gostring) :
  strings.Contains s sub = true <-> occurs sub s.
Proof.
  unfold strings.Contains.
  induction s as [|c s IH]; cbn [strings.Index].
  - rewrite occurs_nil. destruct sub; cbn; split; congruence.
  - rewrite occurs_cons.
    destruct (strings.HasPrefix (c :: s) sub) eqn:E; [tauto|].
    destruct (strings.Index s sub); cbn in *; split; intros H.
    + right. now apply IH.
    + reflexivity.
    + discriminate.
    + destruct H as [H|H]; [discriminate|]. now apply IH.
Qed.

Lemma Contains_false (s sub : gostring) :
  strings.Contains s sub = false <-> ~ occurs sub s.
Proof.
  rewrite <- Contains_true. destruct (strings.Contains s sub); split;
    congruence.
Qed.

Lemma occurs_app (sub a s b : gostring) :
  occurs sub s -> occurs sub (a ++ s ++ b).
Proof.
  intros (pre & post & ->). exists (a ++ pre), (post ++ b).
  now rewrite <- !app_assoc.
Qed.

(** *** replaceFrom *)

Lemma replaceFrom_skip (pre rest old new : gostring) :
  strings.replaceFrom (List.length pre) (pre ++ rest) old new
  = strings.replaceFrom 0 rest old new.
Proof. induction pre as [|c pre IH]; [reflexivity|apply IH]. Qed.

Lemma replaceFrom_match (rest old new : gostring) :
  old <> [] ->
  strings.replaceFrom 0 (old ++ rest) old new
  = new ++ strings.replaceFrom 0 rest old new.
Proof.
  intros Hold. destruct old as [|c old]; [contradiction|].
  cbn [app strings.replaceFrom].
  assert (E : strings.HasPrefix (c :: old ++ rest) (c :: old) = true)
    by (apply HasPrefix_true; exists rest; reflexivity).
  rewrite E. f_equal.
  replace (List.length (c :: old) - 1)%nat with (List.length old)
    by (cbn [List.length]; lia).
  apply replaceFrom_skip.
Qed.

Lemma replaceFrom_nomatch (c : ascii) (t old new : gostring) :
  strings.HasPrefix (c :: t) old = false ->
  strings.replaceFrom 0 (c :: t) old new = c :: strings.replaceFrom 0 t old new.
Proof. intros H. cbn [strings.replaceFrom]. now rewrite H. Qed.

(** Induction along the way [replaceFrom] walks a string: it steps over one
    byte, or over one instance of [old]. *)
Lemma replace_ind (old : gostring) (P : gostring -> Prop) :
  old <> [] ->
  P [] ->
  (forall c t, strings.HasPrefix (c :: t) old = false -> P t -> P (c :: t)) ->
  (forall rest, P rest -> P (old ++ rest)) ->
  forall s, P s.
Proof.
  intros Hold Hnil Hstep Hmatch s.
  remember (List.length s) as n eqn:Hn.
  revert s Hn. induction n as [n IH] using lt_wf_ind. intros s Hn.
  destruct s as [|c t]; [exact Hnil|].
  destruct (strings.HasPrefix (c :: t) old) eqn:E.
  - apply HasPrefix_true in E as (rest & E). rewrite E.
    apply Hmatch. apply (IH (List.length rest)); [|reflexivity].
    subst n. rewrite E, length_app. destruct old; [contradiction|].
    cbn [List.length]. lia.
  - apply Hstep; [exact E|]. apply (IH (List.length t)); [|reflexivity].
    subst n. cbn [List.length]. lia.
Qed.

Lemma ReplaceAll_eq (s old new : gostring) :
  old <> [] -> strings.ReplaceAll s old new = strings.replaceFrom 0 s old new.
Proof. destruct old; [contradiction|reflexivity]. Qed.

Lemma replaceFrom_In (old new : gostring) (c : ascii) :
  old <> [] ->
  forall s, In c (strings.replaceFrom 0 s old new) -> In c s \/ In c new.
Proof.
  intros Hold.
  apply (replace_ind old (fun s =>
           In c (strings.replaceFrom 0 s old new) -> In c s \/ In c new));
    [exact Hold|intros []| |].
  - intros c0 t E IH. rewrite replaceFrom_nomatch by exact E.
    intros [<-|H]; [left; left; reflexivity|].
    destruct (IH H); [left; right|right]; assumption.
  - intros rest IH. rewrite replaceFrom_match by exact Hold.
    intros H. apply in_app_or in H as [H|H]; [auto|].
    destruct (IH H); [left; apply in_or_app|]; auto.
Qed.

Lemma replaceFrom_absent (old new : gostring) :
  old <> [] ->
  forall s, ~ occurs old s -> strings.replaceFrom 0 s old new = s.
Proof.
  intros Hold.
  apply (replace_ind old (fun s =>
           ~ occurs old s -> strings.replaceFrom 0 s old new = s));
    [exact Hold|reflexivity| |].
  - intros c t E IH Hno. rewrite replaceFrom_nomatch by exact E.
    f_equal. apply IH. intros H. apply Hno. apply occurs_cons. auto.
  - intros rest _ Hno. exfalso. apply Hno. exists [], rest. reflexivity.
Qed.

Lemma replaceFrom_shorter (old new : gostring) :
  (List.length new < List.length old)%nat ->
  forall s,
    (List.length (strings.replaceFrom 0 s old new) <= List.length s)%nat
    /\ (occurs old s ->
        (List.length (strings.replaceFrom 0 s old new) < List.length s)%nat).
Proof.
  intros Hlen.
  assert (Hold : old <> []) by (destruct old; [cbn in Hlen; lia|discriminate]).
  apply (replace_ind old); [exact Hold| | |].
  - split; [cbn; lia|]. intros H. apply occurs_nil in H. contradiction.
  - intros c t E [IH1 IH2]. rewrite replaceFrom_nomatch by exact E.
    cbn [List.length]. split; [lia|].
    intros H. apply occurs_cons in H as [H|H]; [congruence|].
    specialize (IH2 H). lia.
  - intros rest [IH1 _]. rewrite replaceFrom_match by exact Hold.
    rewrite !length_app. split; [lia|]. intros _. lia.
Qed.

(** *** The loop that collapses spaces *)

Lemma collapseSpaces_done (n : nat) :
  forall text, (List.length text <= n)%nat ->
  strings.Contains (collapseSpaces n text) (str "  ") = false.
Proof.
  induction n as [|n IH]; intros text Hlen; cbn [collapseSpaces].
  - destruct text; [reflexivity|cbn in Hlen; lia].
  - destruct (strings.Contains text (str "  ")) eqn:E; [|exact E].
    apply IH. apply Contains_true in E.
    rewrite ReplaceAll_eq by discriminate.
    assert (Hlt : (List.length (str " ") < List.length (str "  "))%nat)
      by (cbn; lia).
    pose proof (proj2 (replaceFrom_shorter _ _ Hlt text) E). lia.
Qed.

Lemma collapseSpaces_In (n : nat) (c : ascii) :
  forall text, In c (collapseSpaces n text) -> In c text \/ c = " "%char.
Proof.
  induction n as [|n IH]; intros text; cbn [collapseSpaces]; auto.
  destruct (strings.Contains text (str "  ")); auto.
  intros H. apply IH in H as [H|H]; auto.
  rewrite ReplaceAll_eq in H by discriminate.
  apply replaceFrom_In in H; [|discriminate].
  destruct H as [H|[H|[]]]; auto.
Qed.

(** *** TrimSpace *)

Lemma trimLeft_suffix (s : gostring) :
  forall skip, exists pre, s = pre ++ strings.trimLeft skip s.
Proof.
  induction s as [|c t IH]; intros skip; cbn [strings.trimLeft].
  - exists []. reflexivity.
  - assert (Hrec : forall k, exists pre, c :: t = pre ++ strings.trimLeft k t).
    { intros k. destruct (IH k) as (pre & E). exists (c :: pre).
      cbn [app]. now rewrite <- E. }
    destruct skip as [|k]; [|apply Hrec].
    destruct (utf8.DecodeRuneInString (c :: t)) as [r w].
    destruct (unicode.IsSpace r); [apply Hrec|]. exists []. reflexivity.
Qed.

Lemma trimLeft_first (s : gostring) :
  forall skip,
    strings.trimLeft skip s = []
    \/ unicode.IsSpace (fst (utf8.DecodeRuneInString (strings.trimLeft skip s)))
       = false.
Proof.
  induction s as [|c t IH]; intros skip; cbn [strings.trimLeft]; auto.
  destruct skip as [|k]; [|apply IH].
  destruct (utf8.DecodeRuneInString (c :: t)) as [r w] eqn:E.
  destruct (unicode.IsSpace r) eqn:Er; [apply IH|].
  right. rewrite E. exact Er.
Qed.

Lemma trimRight_prefix (n : nat) :
  forall s, exists post, s = strings.trimRight n s ++ post.
Proof.
  induction n as [|n IH]; intros s; cbn [strings.trimRight].
  - exists []. now rewrite app_nil_r.
  - destruct s as [|c t]; [exists []; reflexivity|].
    destruct (utf8.DecodeLastRuneInString (c :: t)) as [r size].
    destruct (unicode.IsSpace r); [|exists []; now rewrite app_nil_r].
    set (k := (List.length (c :: t) - size)%nat).
    destruct (IH (firstn k (c :: t))) as (post & E).
    exists (post ++ skipn k (c :: t)).
    rewrite app_assoc, <- E. symmetry. apply firstn_skipn.
Qed.

Lemma scanBack_le (n : nat) (s : gostring) (lim : Z) :
  forall start, utf8.scanBack n s start lim <= start.
Proof.
  induction n as [|n IH]; intros start; cbn [utf8.scanBack]; [lia|].
  destruct (start <? lim); [lia|].
  destruct (utf8.RuneStart _); [lia|]. specialize (IH (start - 1)). lia.
Qed.

Lemma decodeLast_width (s : gostring) (r : Z) (size : nat) :
  utf8.DecodeLastRuneInString s = (r, size) -> s <> [] -> (1 <= size)%nat.
Proof.
  unfold utf8.DecodeLastRuneInString. intros H Hs.
  destruct (Z.of_nat (List.length s) =? 0) eqn:E0.
  { destruct s; [contradiction|cbn in E0; lia]. }
  destruct (_ <? utf8.RuneSelf); [injection H as _ <-; lia|].
  set (start := utf8.scanBack _ _ _ _) in H.
  pose proof (scanBack_le 4 s (Z.max (Z.of_nat (List.length s) - utf8.UTFMax) 0)
                (Z.of_nat (List.length s) - 2)) as Hle.
  fold start in Hle.
  destruct (utf8.DecodeRuneInString _) as [r' size'].
  destruct (negb _) eqn:E; [injection H as _ <-; lia|].
  injection H as _ <-. destruct (start <? 0) eqn:E1; lia.
Qed.

Lemma trimRight_last (n : nat) :
  forall s, (List.length s <= n)%nat ->
    strings.trimRight n s = []
    \/ unicode.IsSpace
         (fst (utf8.DecodeLastRuneInString (strings.trimRight n s))) = false.
Proof.
  induction n as [|n IH]; intros s Hlen; cbn [strings.trimRight].
  - left. destruct s; [reflexivity|cbn in Hlen; lia].
  - destruct s as [|c t]; [auto|].
    destruct (utf8.DecodeLastRuneInString (c :: t)) as [r size] eqn:E.
    destruct (unicode.IsSpace r) eqn:Er.
    + apply IH. apply decodeLast_width in E; [|discriminate].
      rewrite length_firstn. lia.
    + right. rewrite E. exact Er.
Qed.

Lemma TrimSpace_infix (s : gostring) :
  exists pre post, s = pre ++ strings.TrimSpace s ++ post.
Proof.
  unfold strings.TrimSpace.
  destruct (trimLeft_suffix s 0) as (pre & E).
  destruct (trimRight_prefix (List.length (strings.trimLeft 0 s))
              (strings.trimLeft 0 s)) as (post & E').
  exists pre, post. now rewrite <- E', <- E.
Qed.

Lemma TrimSpace_ends (s : gostring) :
  strings.TrimSpace s = []
  \/ (unicode.IsSpace (fst (utf8.DecodeRuneInString (strings.TrimSpace s)))
      = false
      /\ unicode.IsSpace
           (fst (utf8.DecodeLastRuneInString (strings.TrimSpace s))) = false).
Proof.
  unfold strings.TrimSpace.
  set (l := strings.trimLeft 0 s).
  destruct (trimRight_last (List.length l) l (le_n _)) as [H|H]; [auto|].
  right. split; [|exact H].
  destruct (trimRight_prefix (List.length l) l) as (post & E).
  destruct (decode_prefix (strings.trimRight (List.length l) l) post)
    as [Hd|Hd].
  - rewrite Hd, <- E. destruct (trimLeft_first s 0) as [Hl|Hl]; [|exact Hl].
    fold l in Hl. rewrite Hl in *. cbn. reflexivity.
  - rewrite Hd. reflexivity.
Qed.

(** C10: for every input, the output of [stripHTMLTags] holds no [<] and no
    [>], holds no two consecutive spaces, and, unless it is empty, neither
    starts nor ends with white space: its first rune and its last rune are
    not [unicode.IsSpace]. *)
Theorem stripHTMLTags_output_shape (html : gostring) :
  (forall c, In c (stripHTMLTags html) -> c <> "<"%char /\ c <> ">"%char)
  /\ (forall pre post,
         stripHTMLTags html <> pre ++ [" "%char; " "%char] ++ post)
  /\ (stripHTMLTags html = []
      \/ (unicode.IsSpace (fst (utf8.DecodeRuneInString (stripHTMLTags html)))
          = false
          /\ unicode.IsSpace
               (fst (utf8.DecodeLastRuneInString (stripHTMLTags html)))
             = false)).
Proof.
  unfold stripHTMLTags.
  set (t0 := scanTags 0 false html).
  set (t1 := strings.ReplaceAll t0 (str "&nbsp;") (str " ")).
  set (t2 := strings.ReplaceAll t1 (newline ++ newline) newline).
  set (t3 := collapseSpaces (List.length t2) t2).
  destruct (TrimSpace_infix t3) as (a & b & E).
  split; [|split].
  - intros c Hc.
    assert (H3 : In c t3).
    { rewrite E. apply in_or_app. right. apply in_or_app. now left. }
    assert (Hb : byteVal c <> 60 /\ byteVal c <> 62).
    { apply collapseSpaces_In in H3 as [H2| ->]; [|vm_compute; split; discriminate].
      unfold t2 in H2. rewrite ReplaceAll_eq in H2 by discriminate.
      apply replaceFrom_In in H2; [|discriminate].
      destruct H2 as [H1|[<-|[]]]; [|vm_compute; split; discriminate].
      unfold t1 in H1. rewrite ReplaceAll_eq in H1 by discriminate.
      apply replaceFrom_In in H1; [|discriminate].
      destruct H1 as [H0|[<-|[]]]; [|vm_compute; split; discriminate].
      eapply scanTags_bytes, H0. }
    split; intros ->; [apply (proj1 Hb)|apply (proj2 Hb)]; reflexivity.
  - intros pre post Hocc.
    assert (Hno : strings.Contains t3 (str "  ") = false)
      by (apply collapseSpaces_done, le_n).
    apply Contains_false in Hno. apply Hno.
    rewrite E. apply occurs_app. exists pre, post. exact Hocc.
  - apply TrimSpace_ends.
Qed.

Lemma stripHTMLTags_output_shape_witness :
  "H"%char <> "<"%char /\ "H"%char <> ">"%char.
Proof.
  apply (proj1 (stripHTMLTags_output_shape (str "<p>Hello <b>World</b></p>"))).
  vm_compute. left. reflexivity.
Defined.

Lemma first_inv (b : Z) (sz : nat) (lo hi : Z) :
  utf8.first b = utf8.lead sz lo hi ->
  (sz = 2%nat /\ 194 <= b <= 223 /\ lo = 128 /\ hi = 191)
  \/ (sz = 3%nat /\ 224 <= b <= 239 /\ 128 <= lo /\ hi <= 191
      /\ (b = 224 -> lo = 160) /\ (b = 237 -> hi = 159))
  \/ (sz = 4%nat /\ 240 <= b <= 244 /\ 128 <= lo /\ hi <= 191
      /\ (b = 240 -> lo = 144) /\ (b = 244 -> hi = 143)).
Proof.
  unfold utf8.first, utf8.locb, utf8.hicb.
  repeat match goal with
  | |- context [if ?c then _ else _] => destruct c eqn:?
  end; intros H; try discriminate; injection H as <- <- <-; lia.
Qed.

Lemma encode2 (s0 s1 : Z) :
  194 <= s0 <= 223 -> 128 <= s1 <= 191 ->
  let r := (s0 mod 32) * 64 + s1 mod 64 in
  utf8.EncodeRune r = [byteOf s0; byteOf s1]
  /\ 128 <= r /\ utf8.ValidRune r = true.
Proof.
  intros H0 H1 r.
  assert (Hr : 128 <= r <= 2047) by (subst r; zlia).
  unfold utf8.EncodeRune, utf8.ValidRune, utf8.isSurrogate, utf8.MaxRune.
  split; [|split; lia].
  destruct ((0 <=? r) && (r <=? 127)) eqn:E1; [lia|].
  destruct ((0 <=? r) && (r <=? 2047)) eqn:E2; [|lia].
  f_equal; [|f_equal]; f_equal; subst r; zlia.
Qed.

Lemma encode3 (s0 s1 s2 : Z) :
  224 <= s0 <= 239 -> 128 <= s1 <= 191 -> 128 <= s2 <= 191 ->
  (s0 = 224 -> 160 <= s1) -> (s0 = 237 -> s1 <= 159) ->
  let r := (s0 mod 16) * 4096 + (s1 mod 64) * 64 + s2 mod 64 in
  utf8.EncodeRune r = [byteOf s0; byteOf s1; byteOf s2]
  /\ 128 <= r /\ utf8.ValidRune r = true.
Proof.
  intros H0 H1 H2 Ha Hb r.
  assert (Hr : 2048 <= r <= 65535 /\ ~ (55296 <= r <= 57343)) by (subst r; zlia).
  unfold utf8.EncodeRune, utf8.ValidRune, utf8.isSurrogate, utf8.MaxRune.
  split; [|split; lia].
  destruct ((0 <=? r) && (r <=? 127)) eqn:E1; [lia|].
  destruct ((0 <=? r) && (r <=? 2047)) eqn:E2; [lia|].
  destruct (negb _) eqn:E3; [lia|].
  destruct (r <=? 65535) eqn:E4; [|lia].
  unfold utf8.encode3.
  f_equal; [|f_equal; [|f_equal]]; f_equal; subst r; zlia.
Qed.

Lemma encode4 (s0 s1 s2 s3 : Z) :
  240 <= s0 <= 244 -> 128 <= s1 <= 191 -> 128 <= s2 <= 191 ->
  128 <= s3 <= 191 ->
  (s0 = 240 -> 144 <= s1) -> (s0 = 244 -> s1 <= 143) ->
  let r := (s0 mod 8) * 262144 + (s1 mod 64) * 4096 + (s2 mod 64) * 64
           + s3 mod 64 in
  utf8.EncodeRune r = [byteOf s0; byteOf s1; byteOf s2; byteOf s3]
  /\ 65536 <= r /\ utf8.ValidRune r = true.
Proof.
  intros H0 H1 H2 H3 Ha Hb r.
  assert (Hr : 65536 <= r <= 1114111) by (subst r; zlia).
  unfold utf8.EncodeRune, utf8.ValidRune, utf8.isSurrogate, utf8.MaxRune.
  split; [|split; lia].
  destruct ((0 <=? r) && (r <=? 127)) eqn:E1; [lia|].
  destruct ((0 <=? r) && (r <=? 2047)) eqn:E2; [lia|].
  destruct (negb _) eqn:E3; [lia|].
  destruct (r <=? 65535) eqn:E4; [lia|].
  f_equal; [|f_equal; [|f_equal; [|f_equal]]]; f_equal; subst r; zlia.
Qed.

Lemma inRange_true (b lo hi : Z) :
  utf8.inRange b lo hi = true <-> lo <= b <= hi.
Proof. unfold utf8.inRange. lia. Qed.

Lemma decode_spec (s : gostring) (r : Z) (w : nat) :
  utf8.DecodeRuneInString s = (r, w) -> decoded s r w.
Proof.
  destruct s as [|c0 t].
  { intros H. injection H as <- <-. now apply decoded_empty. }
  pose proof (byteVal_range c0) as R0.
  unfold utf8.DecodeRuneInString.
  destruct (utf8.first (byteVal c0)) as [| |sz lo hi] eqn:Ef.
  { intros H. injection H as <- <-. eapply decoded_ascii; eauto.
    unfold utf8.first in Ef. destruct (byteVal c0 <? 128) eqn:E; [lia|].
    repeat match type of Ef with
    | (if ?c then _ else _) = _ => destruct c; try discriminate
    end. }
  { intros H. injection H as <- <-. eapply decoded_invalid; eauto.
    unfold utf8.first in Ef. destruct (byteVal c0 <? 128) eqn:E;
      [discriminate|lia]. }
  assert (Hge : 128 <= byteVal c0).
  { apply first_inv in Ef. lia. }
  assert (Hinv : forall r w, (utf8.RuneError, 1%nat) = (r, w) ->
                             decoded (c0 :: t) r w).
  { intros r' w' H. injection H as <- <-. eapply decoded_invalid; eauto. }
  destruct (_ <? _)%nat eqn:Elen; [apply Hinv|].
  destruct t as [|c1 t1]; [apply Hinv|].
  pose proof (byteVal_range c1) as R1.
  destruct (negb (utf8.inRange (byteVal c1) lo hi)) eqn:E1; [apply Hinv|].
  apply negb_false_iff, inRange_true in E1.
  pose proof Ef as Ef'. apply first_inv in Ef'.
  destruct (sz <=? 2)%nat eqn:Esz2.
  { intros H. injection H as <- <-.
    assert (sz = 2%nat) by lia. subst sz.
    destruct (encode2 (byteVal c0) (byteVal c1)) as (He & Hr & Hv); [lia..|].
    rewrite !byteOf_byteVal in He.
    eapply (decoded_multi _ _ _ c0 [c1] t1); eauto.
    intros q'. cbn [app]. unfold utf8.DecodeRuneInString. rewrite Ef. cbn.
    replace (utf8.inRange (byteVal c1) lo hi) with true
      by (symmetry; apply inRange_true; lia).
    reflexivity. }
  destruct t1 as [|c2 t2]; [apply Hinv|].
  pose proof (byteVal_range c2) as R2.
  destruct (negb (utf8.inRange (byteVal c2) utf8.locb utf8.hicb)) eqn:E2;
    [apply Hinv|].
  apply negb_false_iff, inRange_true in E2. unfold utf8.locb, utf8.hicb in E2.
  destruct (sz <=? 3)%nat eqn:Esz3.
  { intros H. injection H as <- <-.
    assert (sz = 3%nat) by lia. subst sz.
    destruct (encode3 (byteVal c0) (byteVal c1) (byteVal c2))
      as (He & Hr & Hv); [lia..|].
    rewrite !byteOf_byteVal in He.
    eapply (decoded_multi _ _ _ c0 [c1; c2] t2); eauto.
    intros q'. cbn [app]. unfold utf8.DecodeRuneInString. rewrite Ef. cbn.
    replace (utf8.inRange (byteVal c1) lo hi) with true
      by (symmetry; apply inRange_true; lia).
    replace (utf8.inRange (byteVal c2) utf8.locb utf8.hicb) with true
      by (symmetry; apply inRange_true; unfold utf8.locb, utf8.hicb; lia).
    reflexivity. }
  destruct t2 as [|c3 t3]; [apply Hinv|].
  pose proof (byteVal_range c3) as R3.
  destruct (negb (utf8.inRange (byteVal c3) utf8.locb utf8.hicb)) eqn:E3;
    [apply Hinv|].
  apply negb_false_iff, inRange_true in E3. unfold utf8.locb, utf8.hicb in E3.
  intros H. injection H as <- <-.
  assert (sz = 4%nat) by lia. subst sz.
  destruct (encode4 (byteVal c0) (byteVal c1) (byteVal c2) (byteVal c3))
    as (He & Hr & Hv); [lia..|].
  rewrite !byteOf_byteVal in He.
  eapply (decoded_multi _ _ _ c0 [c1; c2; c3] t3); eauto; [lia|].
  intros q'. cbn [app]. unfold utf8.DecodeRuneInString. rewrite Ef. cbn.
  replace (utf8.inRange (byteVal c1) lo hi) with true
    by (symmetry; apply inRange_true; lia).
  replace (utf8.inRange (byteVal c2) utf8.locb utf8.hicb) with true
    by (symmetry; apply inRange_true; unfold utf8.locb, utf8.hicb; lia).
  replace (utf8.inRange (byteVal c3) utf8.locb utf8.hicb) with true
    by (symmetry; apply inRange_true; unfold utf8.locb, utf8.hicb; lia).
  reflexivity.
Qed.

(** ** strconv.Quote and the JSON decoder *)

Lemma quoteBody_skip (printTable : Z -> bool) (pre rest : gostring) :
  strconv.quoteBody printTable (List.length pre) (pre ++ rest)
  = strconv.quoteBody printTable 0 rest.
Proof. induction pre as [|c pre IH]; [reflexivity|apply IH]. Qed.

Lemma unquoteBody_skip (pre rest : gostring) :
  json.unquoteBody (List.length pre) (pre ++ rest) = json.unquoteBody 0 rest.
Proof. induction pre as [|c pre IH]; [reflexivity|apply IH]. Qed.

Lemma hexVal_lowerhex (d : Z) :
  0 <= d < 16 -> json.hexVal (strconv.lowerhex d) = Some d.
Proof.
  intros H.
  assert (E : d = 0 \/ d = 1 \/ d = 2 \/ d = 3 \/ d = 4 \/ d = 5 \/ d = 6
              \/ d = 7 \/ d = 8 \/ d = 9 \/ d = 10 \/ d = 11 \/ d = 12
              \/ d = 13 \/ d = 14 \/ d = 15) by lia.
  repeat (destruct E as [->|E]; [reflexivity|]). subst d. reflexivity.
Qed.

Lemma getu4_hex4 (r : Z) (rest : gostring) :
  0 <= r < 65536 ->
  json.getu4 (str "\u" ++ strconv.hex4 r ++ rest) = Some r.
Proof.
  intros H. unfold strconv.hex4. cbn [str list_ascii_of_string app json.getu4].
  replace (Ascii.eqb "\"%char backslash && Ascii.eqb "u"%char "u"%char)
    with true by reflexivity.
  rewrite !hexVal_lowerhex by zlia. f_equal. zlia.
Qed.

Lemma emit_Some (chunk : gostring) (rest : option gostring) (out : gostring) :
  json.emit chunk rest = Some out ->
  exists out', out = chunk ++ out' /\ rest = Some out'.
Proof.
  destruct rest as [o|]; [|discriminate]. cbn. intros H. injection H as <-.
  eauto.
Qed.

Lemma byteVal_eq (c : ascii) (z : Z) : byteVal c = z -> c = byteOf z.
Proof. intros <-. symmetry. apply byteOf_byteVal. Qed.

(** An ASCII byte, quoted and unquoted, is the byte, or the decoder refuses
    the escape. *)
Lemma unquote_ascii_chunk (printTable : Z -> bool) (c : ascii)
  (rest out : gostring) :
  byteVal c < 128 ->
  json.unquoteBody 0 (strconv.appendEscapedRune printTable (byteVal c) ++ rest)
  = Some out ->
  exists out', out = c :: out' /\ json.unquoteBody 0 rest = Some out'.
Proof.
  intros Hc. pose proof (byteVal_range c) as R.
  unfold strconv.appendEscapedRune, strconv.IsPrint.
  destruct ((byteVal c =? 34) || (byteVal c =? 92)) eqn:E1.
  { assert (E : byteVal c = 34 \/ byteVal c = 92) by lia.
    destruct E as [E|E]; rewrite E; apply byteVal_eq in E; subst c;
      cbn; intros H; apply emit_Some in H; exact H. }
  destruct (byteVal c <=? 255) eqn:E2; [|lia].
  destruct ((32 <=? byteVal c) && (byteVal c <=? 126)) eqn:E3.
  { unfold utf8.EncodeRune.
    destruct ((0 <=? byteVal c) && (byteVal c <=? 127)) eqn:E4; [|lia].
    rewrite byteOf_byteVal. cbn [app json.unquoteBody].
    destruct (byteVal c =? 92) eqn:E5; [lia|].
    destruct ((byteVal c =? 34) || (byteVal c <? 32)) eqn:E6; [lia|].
    destruct (byteVal c <? utf8.RuneSelf) eqn:E7;
      [|unfold utf8.RuneSelf in E7; lia].
    intros H. apply emit_Some in H. exact H. }
  destruct (161 <=? byteVal c) eqn:E4; [lia|]. cbn [andb].
  repeat match goal with
  | |- context [if byteVal c =? ?k then _ else _] =>
    let E := fresh "E" in
    destruct (byteVal c =? k) eqn:E;
      [apply Z.eqb_eq, byteVal_eq in E; subst c; cbn; intros H;
       first [discriminate | apply emit_Some in H; exact H]|]
  end.
  destruct ((byteVal c <? 32) || (byteVal c =? 127)) eqn:Ectl; [|lia].
  cbn. discriminate.
Qed.

(** A valid rune that is not ASCII, quoted and unquoted, is its own
    encoding, or the decoder refuses the escape. *)
Lemma unquote_multi_chunk (printTable : Z -> bool) (r : Z) (c : ascii)
  (p rest out : gostring) :
  utf8.EncodeRune r = c :: p -> 128 <= byteVal c -> 128 <= r ->
  utf8.ValidRune r = true ->
  (forall q', utf8.DecodeRuneInString ((c :: p) ++ q')
              = (r, List.length (c :: p))) ->
  json.unquoteBody 0 (strconv.appendEscapedRune printTable r ++ rest)
  = Some out ->
  exists out', out = (c :: p) ++ out' /\ json.unquoteBody 0 rest = Some out'.
Proof.
  intros Henc Hc Hr Hv Hdec. pose proof (byteVal_range c) as R.
  assert (Hraw : forall out,
             json.unquoteBody 0 ((c :: p) ++ rest) = Some out ->
             exists out', out = (c :: p) ++ out'
                          /\ json.unquoteBody 0 rest = Some out').
  { intros o. cbn [app json.unquoteBody].
    destruct (byteVal c =? 92) eqn:E5; [lia|].
    destruct ((byteVal c =? 34) || (byteVal c <? 32)) eqn:E6; [lia|].
    destruct (byteVal c <? utf8.RuneSelf) eqn:E7;
      [unfold utf8.RuneSelf in E7; lia|].
    specialize (Hdec rest). cbn [app] in Hdec. rewrite Hdec, Henc.
    replace (List.length (c :: p) - 1)%nat with (List.length p)
      by (cbn [List.length]; lia).
    rewrite unquoteBody_skip. intros H. apply emit_Some in H. exact H. }
  unfold strconv.appendEscapedRune.
  destruct ((r =? 34) || (r =? 92)) eqn:E1; [lia|].
  destruct (strconv.IsPrint printTable r); [rewrite Henc; apply Hraw|].
  repeat match goal with
  | |- context [if r =? ?k then _ else _] =>
    let E := fresh "E" in destruct (r =? k) eqn:E; [lia|]
  end.
  destruct ((r <? 32) || (r =? 127)) eqn:Ectl; [lia|].
  rewrite Hv. cbn [negb].
  destruct (r <? 65536) eqn:Ebmp; [|cbn; discriminate].
  assert (Hsur : utf8.isSurrogate r = false).
  { unfold utf8.ValidRune in Hv. destruct (utf8.isSurrogate r); [lia|reflexivity]. }
  rewrite <- app_assoc.
  pose proof (getu4_hex4 r rest ltac:(lia)) as Hu.
  revert Hu. unfold strconv.hex4.
  cbn [str list_ascii_of_string app json.unquoteBody].
  replace (byteVal "\"%char =? 92) with true by reflexivity.
  replace (byteVal "u"%char =? 117) with true by reflexivity.
  intros ->. rewrite Hsur, Henc.
  intros H. apply emit_Some in H. exact H.
Qed.

Lemma quote_unquote_body (printTable : Z -> bool) (n : nat) :
  forall s out,
    (List.length s <= n)%nat ->
    json.unquoteBody 0 (strconv.quoteBody printTable 0 s) = Some out ->
    out = s.
Proof.
  induction n as [|n IH]; intros s out Hlen.
  { destruct s; [|cbn in Hlen; lia]. cbn. congruence. }
  destruct s as [|c t]; [cbn; congruence|].
  cbn [strconv.quoteBody].
  destruct (byteVal c >=? utf8.RuneSelf) eqn:Ehi.
  - destruct (utf8.DecodeRuneInString (c :: t)) as [r w] eqn:Ed.
    apply decode_spec in Ed.
    destruct Ed as [E|c' t' E Hc|c' t' E Hc -> ->|c' p q E Henc Hw H2 Hc Hr Hv Hdec].
    + discriminate.
    + injection E as <- <-. unfold utf8.RuneSelf in Ehi. lia.
    + cbn. discriminate.
    + replace ((w =? 1)%nat && (r =? utf8.RuneError)) with false by lia.
      injection E as <- ->.
      replace (w - 1)%nat with (List.length p) by (cbn in Hw; lia).
      rewrite quoteBody_skip. intros H.
      rewrite <- Hw in Hdec.
      apply (unquote_multi_chunk printTable r c p) in H; auto.
      destruct H as (out' & -> & H).
      apply IH in H; [now subst|].
      cbn in Hlen. rewrite length_app in Hlen. lia.
  - replace ((1 =? 1)%nat && (byteVal c =? utf8.RuneError)) with false
      by (unfold utf8.RuneSelf, utf8.RuneError in *; lia).
    cbn [Nat.sub]. intros H.
    apply unquote_ascii_chunk in H; [|unfold utf8.RuneSelf in Ehi; lia].
    destruct H as (out' & -> & H). f_equal. apply (IH t out'); [|exact H].
    cbn in Hlen. lia.
Qed.

(** [unescapeUnicodeJSON] gives back the string it is given: where the
    decoder accepts the quoted string, unquoting undoes the quoting. *)
Lemma unescapeUnicodeJSON_id (printTable : Z -> bool) (s : gostring) :
  fst (unescapeUnicodeJSON printTable s) = s.
Proof.
  unfold unescapeUnicodeJSON, strconv.Quote, json.unquote.
  rewrite Ascii.eqb_refl.
  destruct (_ && _); [|reflexivity].
  rewrite removelast_last.
  destruct (json.unquoteBody 0 (strconv.quoteBody printTable 0 s)) as [out|] eqn:E;
    [|reflexivity].
  cbn. eapply quote_unquote_body; [apply le_n|exact E].
Qed.

(** ** The token manager, the upstream client and the gateway *)

Lemma streq_true (a b : gostring) : streq a b = true <-> a = b.
Proof.
  revert b; induction a as [|x a IH]; intros [|y b]; simpl; split;
    try congruence; try reflexivity.
  - intros H. apply andb_true_iff in H as [Hx Hab].
    apply Ascii.eqb_eq in Hx. apply IH in Hab. congruence.
  - intros H. injection H as -> ->. rewrite Ascii.eqb_refl. simpl.
    now apply IH.
Qed.

Lemma streq_false (a b : gostring) : streq a b = false <-> a <> b.
Proof.
  split.
  - intros H E. apply streq_true in E. congruence.
  - intros H. destruct (streq a b) eqn:E; [|reflexivity].
    apply streq_true in E. contradiction.
Qed.

(** *** RefreshToken *)

Lemma RefreshToken_counts (up : Upstream) (w : World) :
  tokenCalls (snd (RefreshToken up w)) = S (tokenCalls w)
  /\ postCalls (snd (RefreshToken up w)) = postCalls w.
Proof.
  unfold RefreshToken.
  destruct (tokenReply up (tokenCalls w)) as [e|st [e|e|tok]]; simpl; auto.
  destruct (streq tok []); simpl; auto.
Qed.

Lemma RefreshToken_ok (up : Upstream) (w w' : World) :
  RefreshToken up w = (None, w') ->
  accessToken (tm w') <> []
  /\ expiry (tm w') = clock w' + 24 * Hour
  /\ exists st, tokenReply up (tokenCalls w) = TokenHTTP st (TokenDecoded (accessToken (tm w'))).
Proof.
  unfold RefreshToken.
  destruct (tokenReply up (tokenCalls w)) as [e|st [e|e|tok]]; try discriminate.
  destruct (streq tok []) eqn:E; try discriminate.
  intros H. injection H as <-. simpl. apply streq_false in E.
  repeat split; eauto.
Qed.

(** C3: whenever [RefreshToken] returns an error, the stored credential is
    what it was before the call: the same [accessToken], the same
    [expiry]. *)
Theorem RefreshToken_failure_keeps_credential
  (up : Upstream) (w w' : World) (err : gostring) :
  RefreshToken up w = (Some err, w') ->
  accessToken (tm w') = accessToken (tm w) /\ expiry (tm w') = expiry (tm w).
Proof.
  unfold RefreshToken.
  destruct (tokenReply up (tokenCalls w)) as [e|st [e|e|tok]];
    try (intros H; injection H as _ <-; split; reflexivity).
  destruct (streq tok []);
    [intros H; injection H as _ <-; split; reflexivity | discriminate].
Qed.

Lemma RefreshToken_failure_witness :
  accessToken (tm (afterTokenCall unreachable worldFresh)) = str "stored"
  /\ expiry (tm (afterTokenCall unreachable worldFresh)) = 1000 + Hour.
Proof.
  apply (RefreshToken_failure_keeps_credential unreachable worldFresh
           (afterTokenCall unreachable worldFresh)
           (str "error sending token request: dial tcp: connection refused")).
  reflexivity.
Defined.

(** The replies on which [RefreshToken] fails: the request cannot be sent,
    the body cannot be read, the body is not the expected JSON, or the token
    in it is empty. *)
Lemma RefreshToken_fails_on (up : Upstream) (w : World) :
  match tokenReply up (tokenCalls w) with
  | TokenSendError _ | TokenHTTP _ (TokenUnreadable _) | TokenHTTP _ (TokenMalformed _) =>
     exists err, fst (RefreshToken up w) = Some err
  | TokenHTTP _ (TokenDecoded tok) => 
     if streq tok [] then exists err, fst (RefreshToken up w) = Some err
     else fst (RefreshToken up w) = None
  end.
Proof.
  unfold RefreshToken.
  destruct (tokenReply up (tokenCalls w)) as [e|st [e|e|tok]]; simpl; eauto.
  destruct (streq tok []); simpl; eauto.
Qed.

(** *** GetToken *)

Lemma nearExpiry_false (w : World) :
  nearExpiry w = false <-> clock w + 5 * Minute <= expiry (tm w).
Proof. unfold nearExpiry. rewrite Z.ltb_ge. reflexivity. Qed.

Lemma nearExpiry_true (w : World) :
  nearExpiry w = true <-> expiry (tm w) < clock w + 5 * Minute.
Proof. unfold nearExpiry. apply Z.ltb_lt. Qed.

Lemma GetToken_fresh (up : Upstream) (w : World) :
  accessToken (tm w) <> [] -> clock w + 5 * Minute <= expiry (tm w) ->
  GetToken up w = ((accessToken (tm w), None), w).
Proof.
  intros Hne Hexp. unfold GetToken.
  apply streq_false in Hne. apply nearExpiry_false in Hexp.
  now rewrite Hne, Hexp.
Qed.

Lemma GetToken_stale (up : Upstream) (w : World) :
  accessToken (tm w) = [] \/ expiry (tm w) < clock w + 5 * Minute ->
  GetToken up w =
  (match fst (RefreshToken up w) with
   | Some err => ([], Some err)
   | None => (accessToken (tm (snd (RefreshToken up w))), None)
   end, snd (RefreshToken up w)).
Proof.
  intros H. unfold GetToken.
  assert (E : streq (accessToken (tm w)) [] || nearExpiry w = true).
  { apply orb_true_iff. destruct H as [H|H].
    - left. now apply streq_true.
    - right. now apply nearExpiry_true. }
  rewrite E. destruct (RefreshToken up w) as [[e|] w']; reflexivity.
Qed.

(** C2, amended: [GetToken] returns the stored token, and leaves the state as
    it is, when the token is not empty and its expiry is at least five
    minutes after the current time; otherwise it refreshes first, and returns
    an error with no token exactly when the refresh fails.  A token it
    returns is the stored one, is not empty, and expires no sooner than five
    minutes after the time of the return. *)
Theorem GetToken_contract (up : Upstream) (w : World) :
  (accessToken (tm w) <> [] -> clock w + 5 * Minute <= expiry (tm w) ->
   GetToken up w = ((accessToken (tm w), None), w))
  /\ (accessToken (tm w) = [] \/ expiry (tm w) < clock w + 5 * Minute ->
      GetToken up w =
      (match fst (RefreshToken up w) with
       | Some err => ([], Some err)
       | None => (accessToken (tm (snd (RefreshToken up w))), None)
       end, snd (RefreshToken up w)))
  /\ (forall token w', GetToken up w = ((token, None), w') ->
      token = accessToken (tm w') /\ token <> []
      /\ clock w' + 5 * Minute <= expiry (tm w'))
  /\ (forall token err w', GetToken up w = ((token, Some err), w') ->
      token = []
      /\ (accessToken (tm w) = [] \/ expiry (tm w) < clock w + 5 * Minute)
      /\ RefreshToken up w = (Some err, w')).
Proof.
  split; [apply GetToken_fresh|]. split; [apply GetToken_stale|].
  unfold GetToken.
  destruct (streq (accessToken (tm w)) []) eqn:Etok;
    destruct (nearExpiry w) eqn:Eexp; simpl;
    try (destruct (RefreshToken up w) as [[e|] w1] eqn:ER).
  all: split; intros; 
    repeat match goal with
    | H : (_, _) = (_, _) |- _ => injection H as; subst 
    end; try discriminate.
  all: try (apply RefreshToken_ok in ER as (Hne & Hexp & _);
            repeat split; auto; rewrite Hexp; unfold Hour, Minute; lia).
  all: try (repeat split; auto;
            first [ left; now apply streq_true | right; now apply nearExpiry_true ]).
  all: apply streq_false in Etok; apply nearExpiry_false in Eexp;
    repeat split; auto.
Qed.

Lemma GetToken_contract_witness :
  GetToken unreachable worldBoundary = ((str "stored", None), worldBoundary).
Proof.
  apply (proj1 (GetToken_contract unreachable worldBoundary)).
  - discriminate.
  - vm_compute. discriminate.
Defined.

(** As C2 is worded, a token whose expiry is five minutes away to the
    nanosecond is not more than five minutes from its expiry, so a refresh
    would have to be sent: it is not. *)
Lemma GetToken_boundary_counterexample :
  ~ (~ (accessToken (tm worldBoundary) <> []
        /\ clock worldBoundary + 5 * Minute < expiry (tm worldBoundary)) ->
     tokenCalls (snd (GetToken (rejecting 0 []) worldBoundary))
     = S (tokenCalls worldBoundary)).
Proof.
  intros H.
  assert (Hnot : ~ (accessToken (tm worldBoundary) <> []
                    /\ clock worldBoundary + 5 * Minute
                       < expiry (tm worldBoundary))).
  { intros [_ Hlt]. vm_compute in Hlt. discriminate. }
  specialize (H Hnot). vm_compute in H. discriminate.
Qed.

(** *** fetchContentFromBetterMode *)

Lemma GetToken_rejectAll (w : World) :
  exists token w', GetToken rejectAll w = ((token, None), w').
Proof.
  unfold GetToken.
  destruct (streq (accessToken (tm w)) [] || nearExpiry w); eauto.
  unfold RefreshToken. simpl. eauto.
Qed.

Lemma fetch_rejectAll_never_returns (fuel : nat) (postID : gostring) (w : World) :
  fetchContentFromBetterMode fuel rejectAll postID w = None.
Proof.
  revert w; induction fuel as [|fuel IH]; intros w; [reflexivity|].
  cbn [fetchContentFromBetterMode].
  destruct (GetToken_rejectAll w) as (token & w1 & ->).
  cbn. apply IH.
Qed.

(** C1, on the code: after a second status 401 the fetch is tried a third
    time, and its result is returned (three post queries, three token
    queries, no error); against an upstream that answers 401 to every post
    query, the calls never come to an end, whatever the depth allowed. *)
Theorem fetch_retries_without_bound :
  (exists w,
      fetchContentFromBetterMode 3 (rejecting 2 (str "<p>post</p>"))
                                 (str "rYDKVA8XqjSsqHK") world0
      = Some ((str "<p>post</p>", str "Title", None), w)
      /\ postCalls w = 3%nat /\ tokenCalls w = 3%nat)
  /\ (forall fuel postID w,
         fetchContentFromBetterMode fuel rejectAll postID w = None).
Proof.
  split.
  - eexists. split; [vm_compute; reflexivity|]. split; reflexivity.
  - apply fetch_rejectAll_never_returns.
Qed.

(** *** getContent *)

Lemma chooseFormat_cases (format : gostring) :
  (format = [] /\ chooseFormat format = Some (str "html"))
  \/ (format = str "html" /\ chooseFormat format = Some (str "html"))
  \/ (format = str "text" /\ chooseFormat format = Some (str "text"))
  \/ (format <> [] /\ format <> str "html" /\ format <> str "text"
      /\ chooseFormat format = None).
Proof.
  unfold chooseFormat.
  destruct (streq format []) eqn:E0.
  { left. apply streq_true in E0. auto. }
  destruct (streq format (str "html")) eqn:E1.
  { right; left. apply streq_true in E1. subst. auto. }
  destruct (streq format (str "text")) eqn:E2.
  { right; right; left. apply streq_true in E2. subst. auto. }
  right; right; right.
  apply streq_false in E0, E1, E2. simpl. auto.
Qed.

(** C9, amended: a body that cannot be decoded, a request with an empty post
    id, or one with a format that is not empty and is neither html nor text,
    is answered with status 400 and the state is untouched (nothing was sent
    upstream, whatever the depth allowed to the fetch); a request whose
    format is not given or is empty is handled as one with the format html;
    an error of the fetch is answered with status 500 and the message of the
    error. *)
Theorem getContent_validation (fuel : nat) (up : Upstream)
  (printTable : Z -> bool) (order : list (gostring * gostring)) (w : World) :
  getContent fuel up printTable order Malformed w
  = Some (httpError (str "Invalid request body") StatusBadRequest, w)
  /\ (forall post_id format,
         fieldValue post_id = []
         \/ (fieldValue format <> [] /\ fieldValue format <> str "html"
             /\ fieldValue format <> str "text") ->
         exists msg,
           getContent fuel up printTable order (Object post_id format) w
           = Some (httpError msg StatusBadRequest, w))
  /\ (forall post_id format,
         fieldValue format = [] ->
         getContent fuel up printTable order (Object post_id format) w
         = getContent fuel up printTable order
             (Object post_id (Some (str "html"))) w)
  /\ (forall post_id format content title err w',
         fieldValue post_id <> [] ->
         fieldValue format = [] \/ fieldValue format = str "html"
         \/ fieldValue format = str "text" ->
         fetchContentFromBetterMode fuel up (fieldValue post_id) w
         = Some ((content, title, Some err), w') ->
         getContent fuel up printTable order (Object post_id format) w
         = Some (httpError (str "Error fetching content: " ++ err)
                           StatusInternalServerError, w')).
Proof.
  split; [reflexivity|]. split; [|split].
  - intros post_id format H. unfold getContent, Decode.
    cbn [reqPostID reqFormat].
    destruct (streq (fieldValue post_id) []) eqn:E; [eauto|].
    destruct H as [H|(H0 & H1 & H2)].
    + apply streq_true in H. congruence.
    + destruct (chooseFormat_cases (fieldValue format))
        as [(?&_)|[(?&_)|[(?&_)|(_&_&_&->)]]]; try contradiction. eauto.
  - intros post_id format H. unfold getContent, Decode.
    cbn [reqPostID reqFormat fieldValue]. rewrite H. reflexivity.
  - intros post_id format content title err w' Hid Hfmt Hfetch.
    unfold getContent, Decode. cbn [reqPostID reqFormat].
    apply streq_false in Hid. rewrite Hid, Hfetch.
    destruct (chooseFormat_cases (fieldValue format))
      as [(?&->)|[(?&->)|[(?&->)|(H0&H1&H2&_)]]]; try reflexivity.
    destruct Hfmt as [?|[?|?]]; contradiction.
Qed.

Lemma getContent_validation_witness :
  (exists msg,
      getContent 0 unreachable noPrint htmlReplacements
                 (Object (Some (str "rYDKVA8XqjSsqHK")) (Some (str "markdown")))
                 world0
      = Some (httpError msg StatusBadRequest, world0))
  /\ getContent 1 unreachable noPrint htmlReplacements
                (Object (Some (str "rYDKVA8XqjSsqHK")) None) world0
     = Some (httpError
               (str "Error fetching content: error getting access token: error sending token request: dial tcp: connection refused")
               StatusInternalServerError, afterTokenCall unreachable world0).
Proof.
  split.
  - apply (proj1 (proj2 (getContent_validation 0 unreachable noPrint
                           htmlReplacements world0))).
    right. cbn. repeat split; discriminate.
  - apply (proj2 (proj2 (proj2 (getContent_validation 1 unreachable noPrint
                                  htmlReplacements world0)))
             (Some (str "rYDKVA8XqjSsqHK")) None [] []).
    + discriminate.
    + left. reflexivity.
    + reflexivity.
Defined.

(** As C9 is worded, a body that gives the format as the empty string gives
    a format that is neither html nor text, and would be answered with
    status 400: the handler takes the default and serves the post. *)
Lemma getContent_empty_format_counterexample :
  ~ (fieldValue (Some []) <> str "html" /\ fieldValue (Some []) <> str "text" ->
     exists msg,
       getContent 1 (rejecting 0 sample) noPrint htmlReplacements
                  (Object (Some (str "rYDKVA8XqjSsqHK")) (Some [])) world0
       = Some (httpError msg StatusBadRequest, world0)).
Proof.
  intros H. destruct H as [msg H]; [split; discriminate|].
  vm_compute in H. discriminate.
Qed.

Lemma getContent_char_count (fuel : nat) (up : Upstream)
  (printTable : Z -> bool) (order : list (gostring * gostring))
  (body : RequestBody) (w w' : World) (resp : ContentResponse) :
  getContent fuel up printTable order body w = Some (renderJSON resp, w') ->
  CharCount resp = Z.of_nat (List.length (Content resp)).
Proof.
  unfold getContent. destruct (Decode body) as [req|]; [|discriminate].
  destruct (streq (reqPostID req) []); [discriminate|].
  destruct (chooseFormat (reqFormat req)); [|discriminate].
  destruct (fetchContentFromBetterMode fuel up (reqPostID req) w)
    as [[[[c t] [e|]] w1]|]; try discriminate.
  intros H. injection H as <- _. reflexivity.
Qed.

(** C7, on the code: for the content [hangul], two characters in six bytes,
    the response carries the count 6. *)
Theorem char_count_is_a_byte_count :
  exists w,
    getContent 1 (rejecting 0 hangul) noPrint htmlReplacements
               (Object (Some (str "rYDKVA8XqjSsqHK")) (Some (str "text")))
               world0
    = Some (renderJSON {| Content := hangul; Format := str "text";
                          PostID := str "rYDKVA8XqjSsqHK"; Title := str "Title";
                          CharCount := 6 |}, w)
    /\ utf8.runes 0 hangul = [54620; 44544]
    /\ utf8.RuneCountInString hangul = 2%nat.
Proof.
  eexists. split; [vm_compute; reflexivity|]. split; reflexivity.
Qed.

(** C8: [stripHTMLTags] turns the paragraph with [Hello] and a bold [World]
    into the text [Hello World]: no tags, single spaces, nothing around. *)
Theorem stripHTMLTags_hello_world :
  stripHTMLTags (str "<p>Hello <b>World</b></p>") = str "Hello World".
Proof. vm_compute. reflexivity. Qed.

(** ** Replacing an instance by one byte *)

Section ReplaceByByte.

Variables (old : gostring) (ch : ascii).
Hypothesis old_nonempty : old <> [].

Let R (s : gostring) : gostring := strings.replaceFrom 0 s old [ch].

Lemma replaced_prefix :
  forall s q, ~ In ch q ->
    strings.HasPrefix (R s) q = true -> strings.HasPrefix s q = true.
Proof.
  apply (replace_ind old (fun s => forall q, ~ In ch q ->
           strings.HasPrefix (R s) q = true -> strings.HasPrefix s q = true));
    [exact old_nonempty|auto| |].
  - intros c t E IH q Hq. unfold R. rewrite replaceFrom_nomatch by exact E.
    destruct q as [|x q]; [reflexivity|]. cbn [strings.HasPrefix].
    rewrite !andb_true_iff. intros [Hx Hp]. split; [exact Hx|].
    apply IH; [|exact Hp]. intros H. apply Hq. now right.
  - intros rest _ q Hq. unfold R. rewrite replaceFrom_match by exact old_nonempty.
    destruct q as [|x q]; [reflexivity|]. cbn [app strings.HasPrefix].
    rewrite andb_true_iff, Ascii.eqb_eq. intros [-> _].
    exfalso. apply Hq. now left.
Qed.

Lemma replaced_prefix_cons (c : ascii) (t q : gostring) :
  ~ In ch q ->
  strings.HasPrefix (c :: R t) q = true -> strings.HasPrefix (c :: t) q = true.
Proof.
  intros Hq. destruct q as [|x q]; [reflexivity|]. cbn [strings.HasPrefix].
  rewrite !andb_true_iff. intros [Hx Hp]. split; [exact Hx|].
  apply replaced_prefix; [|exact Hp]. intros H. apply Hq. now right.
Qed.

(** Replacing by a byte that [q] does not hold brings in no instance of
    [q]. *)
Lemma replaced_occurs (q : gostring) :
  ~ In ch q -> forall s, occurs q (R s) -> occurs q s.
Proof.
  intros Hq.
  apply (replace_ind old (fun s => occurs q (R s) -> occurs q s));
    [exact old_nonempty|auto| |].
  - intros c t E IH. unfold R. rewrite replaceFrom_nomatch by exact E.
    rewrite !occurs_cons. intros [H|H].
    + left. now apply replaced_prefix_cons.
    + right. now apply IH.
  - intros rest IH. unfold R. rewrite replaceFrom_match by exact old_nonempty.
    cbn [app]. rewrite occurs_cons. intros [H|H].
    + destruct q as [|x q]; [exists [], (old ++ rest); reflexivity|].
      cbn [strings.HasPrefix] in H.
      apply andb_true_iff in H as [H _]. apply Ascii.eqb_eq in H.
      exfalso. apply Hq. left. now symmetry.
    + apply (occurs_app q old rest []) in IH; [|exact H].
      now rewrite app_nil_r in IH.
Qed.

(** Replacing by a byte that [old] does not hold leaves no instance of
    [old]. *)
Lemma replaced_gone :
  ~ In ch old -> forall s, ~ occurs old (R s).
Proof.
  intros Hq.
  apply (replace_ind old (fun s => ~ occurs old (R s)));
    [exact old_nonempty| | |].
  - intros H. apply occurs_nil in H. contradiction.
  - intros c t E IH. unfold R. rewrite replaceFrom_nomatch by exact E.
    rewrite occurs_cons. intros [H|H]; [|now apply IH].
    apply replaced_prefix_cons in H; [congruence|exact Hq].
  - intros rest IH. unfold R. rewrite replaceFrom_match by exact old_nonempty.
    cbn [app]. rewrite occurs_cons. intros [H|H]; [|now apply IH].
    destruct old as [|x q]; [contradiction|].
    cbn [strings.HasPrefix] in H.
    apply andb_true_iff in H as [H _]. apply Ascii.eqb_eq in H.
    apply Hq. left. now symmetry.
Qed.

End ReplaceByByte.

(** ** cleanupContent *)

Lemma cleanupContent_eq (printTable : Z -> bool)
  (order : list (gostring * gostring)) (content : gostring) :
  cleanupContent printTable order content
  = replaceEntities order
      (strings.ReplaceAll (stripQuotes content) [backslash; dquote] [dquote]).
Proof.
  unfold cleanupContent.
  pose proof (unescapeUnicodeJSON_id printTable
    (strings.ReplaceAll (stripQuotes content) [backslash; dquote] [dquote])) as H.
  destruct (unescapeUnicodeJSON _ _) as [result [e|]]; cbn in H;
    [reflexivity|now rewrite H].
Qed.

Lemma In_occurs (c : ascii) (sub s : gostring) :
  In c sub -> occurs sub s -> In c s.
Proof.
  intros Hc (pre & post & ->). apply in_or_app. right. apply in_or_app.
  now left.
Qed.

(** A string with no quote and no backslash goes through the first three
    steps of [cleanupContent] as it is. *)
Lemma cleanupContent_plain (printTable : Z -> bool)
  (order : list (gostring * gostring)) (s : gostring) :
  ~ In dquote s -> ~ In backslash s ->
  cleanupContent printTable order s = replaceEntities order s.
Proof.
  intros Hq Hb. rewrite cleanupContent_eq. f_equal.
  assert (E : stripQuotes s = s).
  { unfold stripQuotes. destruct s as [|c t]; [reflexivity|].
    cbn [hd]. destruct (Ascii.eqb c dquote) eqn:E.
    - apply Ascii.eqb_eq in E. subst c. exfalso. apply Hq. now left.
    - now rewrite andb_false_r. }
  rewrite E, ReplaceAll_eq by discriminate.
  apply replaceFrom_absent; [discriminate|].
  intros H. apply Hb. eapply In_occurs; [|exact H]. now left.
Qed.

Lemma replaceEntities_cons (kv : gostring * gostring)
  (order : list (gostring * gostring)) (s : gostring) :
  replaceEntities (kv :: order) s
  = replaceEntities order (strings.ReplaceAll s (fst kv) (snd kv)).
Proof. reflexivity. Qed.

Lemma replaceEntities_settled (order : list (gostring * gostring)) :
  (forall kv, In kv order -> In kv htmlReplacements) ->
  forall s, (forall e, In e entities -> ~ occurs e s) ->
            replaceEntities order s = s.
Proof.
  induction order as [|kv order IH]; intros Hsub s Hs; [reflexivity|].
  rewrite replaceEntities_cons.
  assert (Hkv : In kv htmlReplacements) by (apply Hsub; now left).
  assert (E : strings.ReplaceAll s (fst kv) (snd kv) = s).
  { assert (He : In (fst kv) entities) by (apply in_map, Hkv).
    specialize (Hs _ He).
    assert (Hne : fst kv <> []).
    { cbn in Hkv.
      repeat (destruct Hkv as [<-|Hkv]; [discriminate|]). destruct Hkv. }
    rewrite ReplaceAll_eq by exact Hne.
    now apply replaceFrom_absent. }
  rewrite E. apply IH; [|exact Hs]. intros kv' H. apply Hsub. now right.
Qed.

Ltac not_in_literal :=
  let H := fresh "H" in
  intros H; vm_compute in H;
  repeat (destruct H as [H|H]; [discriminate|]);
  first [discriminate | destruct H].

(** One step of the loop over [htmlReplacements], on a string with no quote,
    no backslash, no [&amp;] and no [&quot;]: these stay away, an entity
    that is not in the string does not come in, and the entity of the step
    is gone. *)
Lemma replace_step (kv : gostring * gostring) (s : gostring) :
  In kv htmlReplacements ->
  ~ In dquote s -> ~ In backslash s ->
  ~ occurs (str "&amp;") s -> ~ occurs (str "&quot;") s ->
  let s' := strings.ReplaceAll s (fst kv) (snd kv) in
  ~ In dquote s' /\ ~ In backslash s'
  /\ (forall e, In e entities -> ~ occurs e s -> ~ occurs e s')
  /\ ~ occurs (fst kv) s'.
Proof.
  intros Hkv Hq Hb Hamp Hquot.
  assert (Hid : forall k v, ~ occurs k s -> k <> [] ->
            let s' := strings.ReplaceAll s k v in
            ~ In dquote s' /\ ~ In backslash s'
            /\ (forall e, In e entities -> ~ occurs e s -> ~ occurs e s')
            /\ ~ occurs k s').
  { intros k v Hk Hne s'. subst s'. rewrite ReplaceAll_eq by exact Hne.
    rewrite replaceFrom_absent by assumption. auto. }
  assert (Hbyte : forall k ch,
            k <> [] -> ch <> dquote -> ch <> backslash -> ~ In ch k ->
            (forall e, In e entities -> ~ In ch e) ->
            let s' := strings.ReplaceAll s k [ch] in
            ~ In dquote s' /\ ~ In backslash s'
            /\ (forall e, In e entities -> ~ occurs e s -> ~ occurs e s')
            /\ ~ occurs k s').
  { intros k ch Hne Hc1 Hc2 Hck Hce s'. subst s'.
    rewrite ReplaceAll_eq by exact Hne.
    repeat split.
    - intros H. apply replaceFrom_In in H; [|exact Hne].
      destruct H as [H|[H|[]]]; [auto|]. now apply Hc1.
    - intros H. apply replaceFrom_In in H; [|exact Hne].
      destruct H as [H|[H|[]]]; [auto|]. now apply Hc2.
    - intros e He Hno H. apply Hno.
      eapply replaced_occurs; [exact Hne|apply Hce, He|exact H].
    - now apply replaced_gone. }
  cbn in Hkv.
  destruct Hkv as [<-|[<-|[<-|[<-|[<-|[<-|[<-|[]]]]]]]]; cbn [fst snd].
  2: apply Hid; [exact Hamp|discriminate].
  4: apply Hid; [exact Hquot|discriminate].
  all: apply Hbyte; [not_in_literal..|].
  all: intros e He; cbn in He;
    repeat (destruct He as [<-|He]; [not_in_literal|]); destruct He.
Qed.

Lemma replaceEntities_inv (order : list (gostring * gostring)) :
  (forall kv, In kv order -> In kv htmlReplacements) ->
  forall s,
    ~ In dquote s -> ~ In backslash s ->
    ~ occurs (str "&amp;") s -> ~ occurs (str "&quot;") s ->
    ~ In dquote (replaceEntities order s)
    /\ ~ In backslash (replaceEntities order s)
    /\ (forall e, In e entities ->
          ~ occurs e s \/ In e (map fst order) ->
          ~ occurs e (replaceEntities order s)).
Proof.
  induction order as [|kv order IH]; intros Hsub s Hq Hb Hamp Hquot.
  { cbn. repeat split; auto. intros e _ [H|[]]. exact H. }
  rewrite replaceEntities_cons.
  assert (Hkv : In kv htmlReplacements) by (apply Hsub; now left).
  destruct (replace_step kv s Hkv Hq Hb Hamp Hquot) as (Hq' & Hb' & Hkeep & Hgone).
  assert (Hamp' : In (str "&amp;") entities) by (cbn; auto).
  assert (Hquot' : In (str "&quot;") entities) by (cbn; auto 10).
  destruct (IH (fun kv' H => Hsub kv' (or_intror H)) _ Hq' Hb'
               (Hkeep _ Hamp' Hamp) (Hkeep _ Hquot' Hquot))
    as (Hq2 & Hb2 & Hent).
  repeat split; auto.
  intros e He [H|[<-|H]]; apply Hent; auto.
Qed.

Lemma mapOrder_sub (order : list (gostring * gostring)) :
  mapOrder order -> forall kv, In kv order -> In kv htmlReplacements.
Proof.
  intros H kv Hkv. eapply Permutation_in; [apply Permutation_sym, H|exact Hkv].
Qed.

Lemma mapOrder_all (order : list (gostring * gostring)) :
  mapOrder order -> forall e, In e entities -> In e (map fst order).
Proof.
  intros H e He. unfold entities in He. apply in_map_iff in He as (kv & <- & Hkv).
  apply in_map. eapply Permutation_in; [exact H|exact Hkv].
Qed.

Lemma cleanupContent_settles (printTable : Z -> bool)
  (order : list (gostring * gostring)) (s : gostring) :
  mapOrder order ->
  ~ In dquote s -> ~ In backslash s ->
  ~ occurs (str "&amp;") s -> ~ occurs (str "&quot;") s ->
  settled (cleanupContent printTable order s).
Proof.
  intros Ho Hq Hb Hamp Hquot. rewrite cleanupContent_plain by assumption.
  destruct (replaceEntities_inv order (mapOrder_sub order Ho) s Hq Hb Hamp Hquot)
    as (Hq' & Hb' & Hent).
  repeat split; auto. intros e He. apply Hent; [exact He|].
  right. now apply mapOrder_all.
Qed.

Lemma cleanupContent_settled (printTable : Z -> bool)
  (order : list (gostring * gostring)) (s : gostring) :
  mapOrder order -> settled s -> cleanupContent printTable order s = s.
Proof.
  intros Ho Hs. pose proof Hs as (Hq & Hb & _).
  rewrite cleanupContent_plain by assumption.
  apply replaceEntities_settled; [now apply mapOrder_sub|apply Hs].
Qed.

(** C5, amended: on an input with no quote, no backslash, and no instance of
    [&amp;] or [&quot;], applying [cleanupContent] twice gives what applying
    it once gives, in whatever orders the two runs visit the replacement
    table. *)
Theorem cleanupContent_twice (printTable : Z -> bool)
  (order1 order2 : list (gostring * gostring)) (s : gostring) :
  mapOrder order1 -> mapOrder order2 ->
  ~ In dquote s -> ~ In backslash s ->
  ~ occurs (str "&amp;") s -> ~ occurs (str "&quot;") s ->
  cleanupContent printTable order2 (cleanupContent printTable order1 s)
  = cleanupContent printTable order1 s.
Proof.
  intros Ho1 Ho2 Hq Hb Hamp Hquot.
  apply cleanupContent_settled; [exact Ho2|].
  now apply cleanupContent_settles.
Qed.

Lemma cleanupContent_twice_witness :
  cleanupContent noPrint htmlReplacements
    (cleanupContent noPrint (rev htmlReplacements) sample)
  = cleanupContent noPrint (rev htmlReplacements) sample.
Proof.
  apply cleanupContent_twice.
  - apply Permutation_rev.
  - apply Permutation_refl.
  - vm_compute. intuition discriminate.
  - vm_compute. intuition discriminate.
  - apply Contains_false. vm_compute. reflexivity.
  - apply Contains_false. vm_compute. reflexivity.
Defined.

(** As C5 is worded: [&amp;amp;] has no quote and no backslash; one run
    leaves [&amp;], a second run leaves [&]. *)
Lemma cleanupContent_twice_counterexample :
  ~ In dquote (str "&amp;amp;") /\ ~ In backslash (str "&amp;amp;")
  /\ cleanupContent noPrint htmlReplacements
       (cleanupContent noPrint htmlReplacements (str "&amp;amp;"))
     <> cleanupContent noPrint htmlReplacements (str "&amp;amp;").
Proof.
  split; [|split].
  - vm_compute. intuition discriminate.
  - vm_compute. intuition discriminate.
  - vm_compute. discriminate.
Qed.

Lemma no_entity_in (s : gostring) :
  forallb (fun e => negb (strings.Contains s e)) entities = true ->
  forall e, In e entities -> ~ occurs e s.
Proof.
  intros H e He. rewrite forallb_forall in H. specialize (H e He).
  apply negb_true_iff in H. now apply Contains_false.
Qed.

Lemma replaceEntities_amp (order : list (gostring * gostring)) :
  (forall kv, In kv order -> In kv htmlReplacements) ->
  replaceEntities order (str "&amp;")
  = if existsb (streq (str "&amp;")) (map fst order) then str "&"
    else str "&amp;".
Proof.
  induction order as [|kv order IH]; intros Hsub; [reflexivity|].
  rewrite replaceEntities_cons.
  assert (Hkv : In kv htmlReplacements) by (apply Hsub; now left).
  specialize (IH (fun kv' H => Hsub kv' (or_intror H))).
  unfold htmlReplacements in Hkv. cbn [In] in Hkv.
  destruct Hkv as [<-|[<-|[<-|[<-|[<-|[<-|[<-|[]]]]]]]];
    cbn [map existsb fst snd];
    try (replace (strings.ReplaceAll (str "&amp;") _ _) with (str "&amp;")
           by (vm_compute; reflexivity);
         rewrite IH; reflexivity).
  replace (strings.ReplaceAll (str "&amp;") (str "&amp;") (str "&"))
    with (str "&") by (vm_compute; reflexivity).
  replace (streq (str "&amp;") (str "&amp;")) with true by reflexivity.
  cbn [orb].
  apply replaceEntities_settled;
    [intros kv' H; apply Hsub; now right|].
  apply no_entity_in. vm_compute. reflexivity.
Qed.

(** C4, on the code: whatever the order of the replacement table,
    [cleanupContent] gives the six bytes of the escape sequence back as they
    are, where it turns [&amp;] into [&]; the pass meant to decode the
    escapes, [unescapeUnicodeJSON], gives every string back as it is. *)
Theorem cleanupContent_keeps_unicode_escape (printTable : Z -> bool)
  (order : list (gostring * gostring)) :
  mapOrder order ->
  cleanupContent printTable order (str "\u0041") = str "\u0041"
  /\ cleanupContent printTable order (str "&amp;") = str "&"
  /\ forall s, fst (unescapeUnicodeJSON printTable s) = s.
Proof.
  intros Ho. split; [|split].
  - rewrite cleanupContent_eq.
    replace (strings.ReplaceAll (stripQuotes (str "\u0041")) _ _)
      with (str "\u0041") by (vm_compute; reflexivity).
    apply replaceEntities_settled; [now apply mapOrder_sub|].
    apply no_entity_in. vm_compute. reflexivity.
  - rewrite cleanupContent_eq.
    replace (strings.ReplaceAll (stripQuotes (str "&amp;")) _ _)
      with (str "&amp;") by (vm_compute; reflexivity).
    rewrite replaceEntities_amp by now apply mapOrder_sub.
    assert (Hin : In (str "&amp;") (map fst order)).
    { apply mapOrder_all; [exact Ho|]. cbn. auto. }
    replace (existsb (streq (str "&amp;")) (map fst order)) with true;
      [reflexivity|].
    symmetry. apply existsb_exists. exists (str "&amp;").
    split; [exact Hin|reflexivity].
  - apply unescapeUnicodeJSON_id.
Qed.

Lemma cleanupContent_keeps_unicode_escape_witness :
  cleanupContent noPrint (rev htmlReplacements) (str "\u0041") = str "\u0041".
Proof.
  apply (proj1 (cleanupContent_keeps_unicode_escape noPrint
                  (rev htmlReplacements) (Permutation_rev htmlReplacements))).
Defined.

(** ** Two [GetToken] calls on the mutex *)














Lemma schedule_cons (up : Upstream) (ev : Event) (evs : list Event)
  (s : Calls) :
  schedule up (ev :: evs) s = schedule up evs (exec up s ev).
Proof. reflexivity. Qed.

Ltac one_event :=
  rewrite schedule_cons;
  cbv [exec step pointOf moved stepGetToken sync.RLock sync.RUnlock sync.Lock
       sync.Unlock sync.writer sync.readers sync.unlocked shared mutex pointA
       pointB twoCalls];
  cbn [orb negb Nat.eqb pred].

(** One call that runs alone does what [GetToken] does. *)
Lemma alone_is_GetToken (up : Upstream) (w : World) :
  schedule up (repeat (run callerA) 9) (twoCalls w)
  = {| shared := snd (GetToken up w); mutex := sync.unlocked;
       pointA := returned (fst (fst (GetToken up w)))
                          (snd (fst (GetToken up w)));
       pointB := atRLock |}.
Proof.
  unfold GetToken. cbn [repeat]. do 2 one_event.
  destruct (streq (accessToken (tm w)) [] || nearExpiry w) eqn:Et.
  - do 3 one_event.
    destruct (RefreshToken up w) as [[e|] w1] eqn:ER;
      repeat one_event; reflexivity.
  - repeat one_event. reflexivity.
Qed.

(* ================================================================= *)
(** * Part III: further properties of the code *)
(* ================================================================= *)

(** ** The token manager *)

Lemma RefreshToken_cases (up : Upstream) (w : World) :
  (exists err, RefreshToken up w = (Some err, afterTokenCall up w))
  \/ (exists st token,
         tokenReply up (tokenCalls w) = TokenHTTP st (TokenDecoded token)
         /\ token <> []
         /\ RefreshToken up w
            = (None, store (afterTokenCall up w) token
                           (clock (afterTokenCall up w) + 24 * Hour))).
Proof.
  unfold RefreshToken.
  destruct (tokenReply up (tokenCalls w)) as [e|st [e|e|tok]]; eauto.
  destruct (streq tok []) eqn:E; eauto.
  right. exists st, tok. apply streq_false in E. auto.
Qed.

(** X1: a token answer whose body holds a non-empty token is accepted
    whatever its HTTP status: the token is stored, its expiry is 24 hours
    after the instant the answer is in, the network domain stays, and a
    [GetToken] that follows returns the token and sends nothing. *)
Theorem RefreshToken_any_status (up : Upstream) (w : World) (st : Z)
  (token : gostring) :
  tokenReply up (tokenCalls w) = TokenHTTP st (TokenDecoded token) ->
  token <> [] ->
  exists w',
    RefreshToken up w = (None, w')
    /\ accessToken (tm w') = token
    /\ expiry (tm w') = clock w' + 24 * Hour
    /\ networkDomain (tm w') = networkDomain (tm w)
    /\ GetToken up w' = ((token, None), w').
Proof.
  intros Hreply Hne. unfold RefreshToken. rewrite Hreply.
  apply streq_false in Hne. rewrite Hne. eexists. split; [reflexivity|].
  cbn. repeat split.
  apply streq_false in Hne.
  match goal with |- GetToken up ?x = _ => pose proof (GetToken_fresh up x) as H end.
  cbn in H. apply H; [exact Hne|]. unfold Hour, Minute. lia.
Qed.

Lemma RefreshToken_any_status_witness :
  exists w',
    RefreshToken erroring world0 = (None, w')
    /\ accessToken (tm w') = str "eyJhbGciOiJIUzI1NiJ9.guest"
    /\ expiry (tm w') = clock w' + 24 * Hour
    /\ networkDomain (tm w') = networkDomain (tm world0)
    /\ GetToken erroring w' = ((str "eyJhbGciOiJIUzI1NiJ9.guest", None), w').
Proof.
  apply (RefreshToken_any_status erroring world0 503).
  - reflexivity.
  - discriminate.
Defined.

(** X2: after a refresh that succeeded, [GetToken] serves the stored token
    without a request for 23 hours and 55 minutes, to the nanosecond; called
    later than that it sends one token query. *)
Theorem refreshed_token_lifetime (up : Upstream) (w w' : World) (d : N) :
  RefreshToken up w = (None, w') ->
  (Z.of_N d <= 24 * Hour - 5 * Minute ->
   GetToken up (wait d w') = ((accessToken (tm w'), None), wait d w'))
  /\ (24 * Hour - 5 * Minute < Z.of_N d ->
      tokenCalls (snd (GetToken up (wait d w'))) = S (tokenCalls w')).
Proof.
  intros H. apply RefreshToken_ok in H as (Hne & Hexp & _). split; intros E.
  - apply (GetToken_fresh up (wait d w')); cbn [wait tm clock]; [exact Hne|].
    lia.
  - unfold GetToken.
    assert (Hn : nearExpiry (wait d w') = true).
    { apply nearExpiry_true. cbn [wait tm clock]. lia. }
    rewrite Hn, orb_true_r.
    pose proof (RefreshToken_counts up (wait d w')) as [Hc _].
    destruct (RefreshToken up (wait d w')) as [[e|] w2]; exact Hc.
Qed.

Lemma refreshed_token_lifetime_witness :
  GetToken (rejecting 0 sample)
           (wait 3600000000000 (snd (RefreshToken (rejecting 0 sample) world0)))
  = ((tokenNo 0, None),
     wait 3600000000000 (snd (RefreshToken (rejecting 0 sample) world0))).
Proof.
  apply (proj1 (refreshed_token_lifetime (rejecting 0 sample) world0
                  (snd (RefreshToken (rejecting 0 sample) world0))
                  3600000000000 eq_refl)).
  vm_compute. discriminate.
Defined.

(** What a [GetToken] that succeeds leaves behind. *)
Lemma GetToken_success (up : Upstream) (w w' : World) (token : gostring) :
  GetToken up w = ((token, None), w') ->
  token = accessToken (tm w') /\ token <> []
  /\ clock w' + 5 * Minute <= expiry (tm w')
  /\ (tokenCalls w <= tokenCalls w' <= S (tokenCalls w))%nat
  /\ postCalls w' = postCalls w.
Proof.
  intros H. unfold GetToken in H.
  destruct (streq (accessToken (tm w)) [] || nearExpiry w) eqn:E.
  - pose proof (RefreshToken_counts up w) as [Hc Hp].
    destruct (RefreshToken up w) as [[e|] w1] eqn:ER; [discriminate|].
    injection H as <- <-. cbn in Hc, Hp.
    apply RefreshToken_ok in ER as (Hne & Hexp & _).
    repeat split; auto; try lia. rewrite Hexp. unfold Hour, Minute. lia.
  - injection H as <- <-. apply orb_false_iff in E as [E1 E2].
    apply streq_false in E1. apply nearExpiry_false in E2.
    repeat split; auto.
Qed.

(** X3: a [GetToken] that succeeded sent at most one token query and no post
    query, and left a token with at least 5 minutes to its expiry.  A second
    [GetToken], called [d] nanoseconds later, returns the same token and
    sends nothing when [d] is at most the time to the expiry less 5 minutes,
    and sends a token query when [d] is more. *)
Theorem GetToken_again (up : Upstream) (w w' : World) (token : gostring)
  (d : N) :
  GetToken up w = ((token, None), w') ->
  0 <= expiry (tm w') - clock w' - 5 * Minute
  /\ (Z.of_N d <= expiry (tm w') - clock w' - 5 * Minute ->
      GetToken up (wait d w') = ((token, None), wait d w'))
  /\ (expiry (tm w') - clock w' - 5 * Minute < Z.of_N d ->
      tokenCalls (snd (GetToken up (wait d w'))) = S (tokenCalls w'))
  /\ (tokenCalls w' <= S (tokenCalls w))%nat /\ postCalls w' = postCalls w.
Proof.
  intros H.
  destruct (GetToken_success up w w' token H) as (-> & Hne & Hexp & Hc & Hp).
  split; [lia|]. split; [|split; [|split; [lia|exact Hp]]].
  - intros Hd.
    apply (GetToken_fresh up (wait d w')); [exact Hne|].
    cbn [wait tm clock]. lia.
  - intros Hd. rewrite GetToken_stale.
    + cbn [snd]. apply (proj1 (RefreshToken_counts up (wait d w'))).
    + right. cbn [wait tm clock]. lia.
Qed.

Lemma GetToken_again_witness :
  GetToken (rejecting 0 sample)
           (wait 86100000000000 (snd (GetToken (rejecting 0 sample) world0)))
  = ((tokenNo 0, None),
     wait 86100000000000 (snd (GetToken (rejecting 0 sample) world0)))
  /\ tokenCalls (snd (GetToken (rejecting 0 sample)
           (wait 86100000000001 (snd (GetToken (rejecting 0 sample) world0)))))
     = 2%nat.
Proof.
  split.
  - apply (proj1 (proj2 (GetToken_again (rejecting 0 sample) world0 _
                           (tokenNo 0) 86100000000000 eq_refl))).
    vm_compute. discriminate.
  - apply (proj1 (proj2 (proj2 (GetToken_again (rejecting 0 sample) world0 _
                           (tokenNo 0) 86100000000001 eq_refl)))).
    vm_compute. reflexivity.
Defined.

(** ** The upstream client *)

(** X4: the content of a post is the value of the first mapping field whose
    key is [content]; later fields with that key are not looked at, also
    when the first one is empty. *)
Theorem findContent_first_match (pre post : list MappingField)
  (field : MappingField) :
  (forall f, In f pre -> Key f <> str "content") ->
  Key field = str "content" ->
  findContent (pre ++ field :: post) = Value field.
Proof.
  intros Hpre Hkey. induction pre as [|f pre IH]; cbn [app findContent].
  - apply streq_true in Hkey. now rewrite Hkey.
  - assert (Hf : Key f <> str "content") by (apply Hpre; now left).
    apply streq_false in Hf. rewrite Hf. apply IH.
    intros f' H. apply Hpre. now right.
Qed.

Lemma findContent_first_match_witness :
  findContent ([ {| Key := str "title"; Type_ := str "text";
                    Value := str "Hello" |} ]
               ++ contentField [] :: [contentField sample]) = [].
Proof.
  apply (findContent_first_match
           [ {| Key := str "title"; Type_ := str "text";
                Value := str "Hello" |} ]
           [contentField sample] (contentField [])).
  - intros f [<-|[]]. discriminate.
  - reflexivity.
Defined.

(** *** Status codes *)

Lemma RefreshToken_restatus (f g : Z -> Z) (up : Upstream) (w : World) :
  RefreshToken (restatus f g up) w = RefreshToken up w.
Proof.
  unfold RefreshToken, afterTokenCall, elapsed. cbn [restatus tokenReply latency].
  destruct (tokenReply up (tokenCalls w)) as [e|st [e|e|tok]]; reflexivity.
Qed.

Lemma GetToken_restatus (f g : Z -> Z) (up : Upstream) (w : World) :
  GetToken (restatus f g up) w = GetToken up w.
Proof. unfold GetToken. now rewrite RefreshToken_restatus. Qed.

(** X5: the only thing the upstream client reads of HTTP status codes is
    whether the answer to a post query is 401: with every status replaced by
    another, 401 staying 401 and nothing else becoming 401, a fetch returns
    the same result and leaves the same state. *)
Theorem fetch_reads_status_as_401_or_not (f g : Z -> Z) (up : Upstream)
  (fuel : nat) (postID : gostring) (w : World) :
  (forall st, f st = StatusUnauthorized <-> st = StatusUnauthorized) ->
  fetchContentFromBetterMode fuel (restatus f g up) postID w
  = fetchContentFromBetterMode fuel up postID w.
Proof.
  intros Hf. revert w. induction fuel as [|fuel IH]; intros w; [reflexivity|].
  cbn [fetchContentFromBetterMode]. rewrite GetToken_restatus.
  destruct (GetToken up w) as [[token [e|]] w1]; [reflexivity|].
  cbn [restatus postReply].
  replace (afterPostCall (restatus f g up) w1) with (afterPostCall up w1)
    by reflexivity.
  destruct (postReply up (postCalls w1) token postID) as [e|st body];
    cbn [restatusPost]; [reflexivity|].
  assert (E : (f st =? StatusUnauthorized) = (st =? StatusUnauthorized)).
  { specialize (Hf st). destruct (st =? StatusUnauthorized) eqn:E1.
    - apply Z.eqb_eq. apply Hf. now apply Z.eqb_eq.
    - apply Z.eqb_neq. intros H. apply Hf in H. apply Z.eqb_neq in E1.
      contradiction. }
  rewrite E. destruct (st =? StatusUnauthorized); [|reflexivity].
  rewrite RefreshToken_restatus.
  destruct (RefreshToken up (afterPostCall up w1)) as [[e|] w3];
    [reflexivity|apply IH].
Qed.

Lemma fetch_reads_status_witness :
  fetchContentFromBetterMode 1 (restatus okUnless401 okUnless401 erroring)
                             (str "rYDKVA8XqjSsqHK") world0
  = fetchContentFromBetterMode 1 erroring (str "rYDKVA8XqjSsqHK") world0.
Proof.
  apply (fetch_reads_status_as_401_or_not okUnless401 okUnless401).
  intros st. unfold okUnless401, StatusUnauthorized.
  destruct (st =? 401) eqn:E; lia.
Defined.

(** *** What a fetch returns *)

Lemma fetch_ok_nonempty (fuel : nat) (up : Upstream) (postID : gostring) :
  forall w content title w',
    fetchContentFromBetterMode fuel up postID w
    = Some ((content, title, None), w') ->
    content <> [].
Proof.
  induction fuel as [|fuel IH]; intros w content title w'; [discriminate|].
  cbn [fetchContentFromBetterMode].
  destruct (GetToken up w) as [[token [e|]] w1]; [discriminate|].
  destruct (postReply up (postCalls w1) token postID) as [e|st body];
    [discriminate|].
  destruct (st =? StatusUnauthorized).
  { destruct (RefreshToken up (afterPostCall up w1)) as [[e|] w3];
      [discriminate|apply IH]. }
  destruct body as [e|e|postResp]; try discriminate.
  destruct (streq (findContent (MappingFields postResp)) []) eqn:Ec;
    [discriminate|].
  intros H. injection H as <- _ _. now apply streq_false.
Qed.

(** X6: a fetch that returns no error returns a content that is not empty:
    the value of the first [content] field of the answer to the last post
    query it sent, an answer with a status other than 401, and the title of
    that answer; a fetch that returns an error returns an empty content, and
    an empty title unless the error is that the content field was not
    found. *)
Theorem fetch_result (fuel : nat) (up : Upstream) (postID : gostring) :
  forall w content title err w',
    fetchContentFromBetterMode fuel up postID w
    = Some ((content, title, err), w') ->
    match err with
    | None =>
      content <> []
      /\ exists st postResp,
          postReply up (pred (postCalls w')) (accessToken (tm w')) postID
          = PostHTTP st (PostDecoded postResp)
          /\ st <> StatusUnauthorized
          /\ content = findContent (MappingFields postResp)
          /\ title = postTitle postResp
    | Some e =>
      content = []
      /\ (title = [] \/ e = str "content field not found")
    end.
Proof.
  induction fuel as [|fuel IH]; intros w content title err w'; [discriminate|].
  cbn [fetchContentFromBetterMode].
  destruct (GetToken up w) as [[token [e|]] w1] eqn:EG.
  { intros H. injection H as <- <- <- <-. auto. }
  apply GetToken_success in EG as (Htok & _).
  destruct (postReply up (postCalls w1) token postID) as [e|st body] eqn:EP.
  { intros H. injection H as <- <- <- <-. auto. }
  destruct (st =? StatusUnauthorized) eqn:E401.
  { destruct (RefreshToken up (afterPostCall up w1)) as [[e|] w3];
      [|apply IH].
    intros H. injection H as <- <- <- <-. auto. }
  destruct body as [e|e|postResp];
    try (intros H; injection H as <- <- <- <-; auto).
  destruct (streq (findContent (MappingFields postResp)) []) eqn:Ec;
    intros H; injection H as <- <- <- <-; [auto|].
  apply streq_false in Ec. split; [exact Ec|].
  exists st, postResp. cbn [afterPostCall postCalls tm pred].
  rewrite <- Htok, EP. repeat split. lia.
Qed.

Lemma fetch_result_witness :
  sample <> []
  /\ exists st postResp,
      postReply (serving sample) 0 (str "eyJhbGciOiJIUzI1NiJ9.guest")
                (str "rYDKVA8XqjSsqHK")
      = PostHTTP st (PostDecoded postResp)
      /\ st <> StatusUnauthorized
      /\ sample = findContent (MappingFields postResp)
      /\ str "Title" = postTitle postResp.
Proof.
  apply (fetch_result 1 (serving sample) (str "rYDKVA8XqjSsqHK") world0
           sample (str "Title") None
           (afterPostCall (serving sample)
              (snd (RefreshToken (serving sample) world0)))).
  reflexivity.
Defined.

(** *** How many requests a fetch sends *)

Lemma RefreshToken_then_served (up : Upstream) (w w' : World) :
  RefreshToken up w = (None, w') ->
  GetToken up w' = ((accessToken (tm w'), None), w').
Proof.
  intros H. apply RefreshToken_ok in H as (Hne & Hexp & _).
  apply GetToken_fresh; [exact Hne|]. rewrite Hexp. unfold Hour, Minute. lia.
Qed.

Lemma fetch_served_counts (up : Upstream) (postID : gostring) (fuel : nat) :
  forall w token res w',
    GetToken up w = ((token, None), w) ->
    fetchContentFromBetterMode fuel up postID w = Some (res, w') ->
    (postCalls w < postCalls w' <= postCalls w + fuel)%nat
    /\ (tokenCalls w <= tokenCalls w'
        <= tokenCalls w + (postCalls w' - postCalls w))%nat
    /\ (snd res = None ->
        (tokenCalls w' + 1 = tokenCalls w + (postCalls w' - postCalls w))%nat).
Proof.
  induction fuel as [|fuel IH]; intros w token res w' Hserved; [discriminate|].
  cbn [fetchContentFromBetterMode]. rewrite Hserved.
  assert (Hdone : forall r, Some (r, afterPostCall up w) = Some (res, w') ->
            (postCalls w < postCalls w' <= postCalls w + S fuel)%nat
            /\ (tokenCalls w <= tokenCalls w'
                <= tokenCalls w + (postCalls w' - postCalls w))%nat
            /\ (snd res = None ->
                (tokenCalls w' + 1
                 = tokenCalls w + (postCalls w' - postCalls w))%nat)).
  { intros r H. injection H as _ <-. cbn [afterPostCall postCalls tokenCalls].
    lia. }
  destruct (postReply up (postCalls w) token postID) as [e|st body];
    [apply Hdone|].
  destruct (st =? StatusUnauthorized).
  - pose proof (RefreshToken_counts up (afterPostCall up w)) as [Hc Hp].
    destruct (RefreshToken up (afterPostCall up w)) as [[e|] w3] eqn:ER;
      cbn [snd afterPostCall postCalls tokenCalls] in Hc, Hp.
    + intros H. injection H as <- <-. cbn [snd]. split; [lia|].
      split; [lia|discriminate].
    + intros H. apply RefreshToken_then_served in ER.
      destruct (IH _ _ _ _ ER H) as (H1 & H2 & H3).
      split; [lia|]. split; [lia|]. intros Hn. specialize (H3 Hn). lia.
  - destruct body as [e|e|postResp]; try apply Hdone.
    destruct (streq (findContent (MappingFields postResp)) []); apply Hdone.
Qed.

(** X7: a fetch that returns has sent at most as many post queries as the
    depth of calls allowed, at least one if it returns no error, and at most
    one token query more than post queries. *)
Theorem fetch_request_counts (up : Upstream) (postID : gostring) (fuel : nat)
  (w w' : World) (res : gostring * gostring * error) :
  fetchContentFromBetterMode fuel up postID w = Some (res, w') ->
  (postCalls w <= postCalls w' <= postCalls w + fuel)%nat
  /\ (tokenCalls w <= tokenCalls w'
      <= tokenCalls w + (postCalls w' - postCalls w) + 1)%nat
  /\ (snd res = None -> (postCalls w < postCalls w')%nat).
Proof.
  destruct fuel as [|fuel]; [discriminate|]. intros H.
  destruct (GetToken up w) as [[token [e|]] w1] eqn:EG.
  - cbn [fetchContentFromBetterMode] in H. rewrite EG in H.
    injection H as <- <-. cbn [snd].
    unfold GetToken in EG.
    destruct (streq (accessToken (tm w)) [] || nearExpiry w); [|discriminate].
    pose proof (RefreshToken_counts up w) as [Hc Hp].
    destruct (RefreshToken up w) as [[e'|] w2]; [|discriminate].
    injection EG as _ _ <-. cbn [snd] in Hc, Hp.
    split; [lia|]. split; [lia|discriminate].
  - destruct (GetToken_success up w w1 token EG)
      as (Htok & Hne & Hexp & Hc & Hp).
    subst token. pose proof (GetToken_fresh up w1 Hne Hexp) as Hs.
    assert (E : fetchContentFromBetterMode (S fuel) up postID w
                = fetchContentFromBetterMode (S fuel) up postID w1).
    { cbn [fetchContentFromBetterMode]. now rewrite EG, Hs. }
    rewrite E in H.
    destruct (fetch_served_counts up postID _ _ _ _ _ Hs H) as (H1 & H2 & _).
    split; [lia|]. split; [lia|]. intros _. lia.
Qed.

Lemma fetch_request_counts_witness :
  (0 <= 3 <= 0 + 3)%nat /\ (0 <= 3 <= 0 + (3 - 0) + 1)%nat
  /\ (@None gostring = None -> (0 < 3)%nat).
Proof.
  apply (fetch_request_counts (rejecting 2 sample) (str "rYDKVA8XqjSsqHK") 3
           world0
           {| tm := {| accessToken := tokenNo 2; expiry := 6000 + 24 * Hour;
                       networkDomain := str "www.gpters.org" |};
              clock := 7000; tokenCalls := 3; postCalls := 3 |}
           (sample, str "Title", None)).
  vm_compute. reflexivity.
Defined.

(** ** The text normalizer: sizes *)

Lemma stripQuotes_length (s : gostring) :
  (List.length (stripQuotes s) <= List.length s)%nat
  /\ (s <> [] -> stripQuotes s <> []).
Proof.
  unfold stripQuotes.
  destruct ((2 <? List.length s)%nat && Ascii.eqb (hd zero s) dquote
            && Ascii.eqb (last s zero) dquote) eqn:E; [|split; auto].
  destruct s as [|c t]; [discriminate|]. cbn [tl].
  assert (Hlen : (2 < List.length (c :: t))%nat) by lia.
  cbn [List.length] in *.
  assert (Ht : t <> []) by (destruct t; [cbn in Hlen; lia|discriminate]).
  pose proof (app_removelast_last zero Ht) as Hr.
  assert (Hl : List.length t = S (List.length (removelast t))).
  { rewrite Hr at 1. rewrite length_app. cbn. lia. }
  split; [lia|]. intros _ H. rewrite H in Hl. cbn in Hl. lia.
Qed.

Lemma replaceFrom_nonempty (old new : gostring) (s : gostring) :
  new <> [] -> s <> [] -> strings.replaceFrom 0 s old new <> [].
Proof.
  intros Hnew Hs. destruct s as [|c t]; [contradiction|].
  cbn [strings.replaceFrom]. destruct (strings.HasPrefix (c :: t) old).
  - destruct new; [contradiction|discriminate].
  - discriminate.
Qed.

Lemma ReplaceAll_nonempty (s old new : gostring) :
  new <> [] -> s <> [] -> strings.ReplaceAll s old new <> [].
Proof.
  intros Hnew Hs. unfold strings.ReplaceAll. destruct old; [exact Hs|].
  now apply replaceFrom_nonempty.
Qed.

Lemma ReplaceAll_shorter (s old new : gostring) :
  (List.length new < List.length old)%nat ->
  (List.length (strings.ReplaceAll s old new) <= List.length s)%nat.
Proof.
  intros H. unfold strings.ReplaceAll. destruct old as [|c old'] eqn:E; [lia|].
  rewrite <- E in *. apply (replaceFrom_shorter old new H s).
Qed.

Lemma table_entry (kv : gostring * gostring) :
  In kv htmlReplacements ->
  snd kv <> [] /\ (List.length (snd kv) < List.length (fst kv))%nat.
Proof.
  intros H. unfold htmlReplacements in H. cbn [In] in H.
  repeat (destruct H as [<-|H]; [split; [discriminate|cbn; lia]|]).
  destruct H.
Qed.

Lemma replaceEntities_size (order : list (gostring * gostring)) :
  (forall kv, In kv order -> In kv htmlReplacements) ->
  forall s,
    (List.length (replaceEntities order s) <= List.length s)%nat
    /\ (s <> [] -> replaceEntities order s <> []).
Proof.
  induction order as [|kv order IH]; intros Hsub s; [cbn; auto|].
  rewrite replaceEntities_cons.
  destruct (table_entry kv (Hsub kv (or_introl eq_refl))) as [Hne Hlt].
  destruct (IH (fun kv' H => Hsub kv' (or_intror H))
               (strings.ReplaceAll s (fst kv) (snd kv))) as [H1 H2].
  pose proof (ReplaceAll_shorter s _ _ Hlt). split; [lia|].
  intros Hs. apply H2. now apply ReplaceAll_nonempty.
Qed.

Lemma cleanupContent_nonempty (printTable : Z -> bool)
  (order : list (gostring * gostring)) (content : gostring) :
  (forall kv, In kv order -> In kv htmlReplacements) ->
  content <> [] -> cleanupContent printTable order content <> [].
Proof.
  intros Hsub Hc. rewrite cleanupContent_eq.
  apply (replaceEntities_size order Hsub).
  apply ReplaceAll_nonempty; [discriminate|].
  now apply stripQuotes_length.
Qed.

(** X8: [cleanupContent] never makes a content longer, and never makes a
    content that is not empty empty, in whatever order it visits entries of
    the replacement table. *)
Theorem cleanupContent_size (printTable : Z -> bool)
  (order : list (gostring * gostring)) (content : gostring) :
  (forall kv, In kv order -> In kv htmlReplacements) ->
  (List.length (cleanupContent printTable order content)
   <= List.length content)%nat
  /\ (content <> [] -> cleanupContent printTable order content <> []).
Proof.
  intros Hsub. split; [|now apply cleanupContent_nonempty].
  rewrite cleanupContent_eq.
  destruct (stripQuotes_length content) as [H1 _].
  assert (H3 : (List.length [dquote] < List.length [backslash; dquote])%nat)
    by (cbn; lia).
  pose proof (ReplaceAll_shorter (stripQuotes content) _ _ H3) as H4.
  destruct (replaceEntities_size order Hsub
              (strings.ReplaceAll (stripQuotes content) [backslash; dquote]
                                  [dquote])) as [H5 _].
  lia.
Qed.

Lemma cleanupContent_size_witness :
  (List.length (cleanupContent noPrint (rev htmlReplacements) sample)
   <= List.length sample)%nat
  /\ (sample <> [] ->
      cleanupContent noPrint (rev htmlReplacements) sample <> []).
Proof.
  apply (cleanupContent_size noPrint (rev htmlReplacements) sample).
  intros kv H. now apply in_rev.
Defined.

(** ** The gateway: what it answers *)

(** X9: [getContent] answers with status 400 and leaves the state untouched,
    or with status 500 and a message that starts with
    [Error fetching content: ], or with the JSON of a response whose post id
    is the one of the request and is not empty, and whose format is html
    (the request gave html or no format) or text (the request gave text). *)
Theorem getContent_answers (fuel : nat) (up : Upstream)
  (printTable : Z -> bool) (order : list (gostring * gostring))
  (body : RequestBody) (w w' : World) (r : HttpResponse) :
  getContent fuel up printTable order body w = Some (r, w') ->
  (exists msg, r = httpError msg StatusBadRequest /\ w' = w)
  \/ (exists err,
         r = httpError (str "Error fetching content: " ++ err)
                       StatusInternalServerError)
  \/ (exists resp post_id format,
         body = Object post_id format /\ r = renderJSON resp
         /\ PostID resp = fieldValue post_id /\ PostID resp <> []
         /\ ((Format resp = str "html"
              /\ (fieldValue format = [] \/ fieldValue format = str "html"))
             \/ (Format resp = str "text" /\ fieldValue format = str "text"))).
Proof.
  unfold getContent. destruct body as [|post_id format]; cbn [Decode].
  { intros H. injection H as <- <-. left. eauto. }
  cbn [reqPostID reqFormat].
  destruct (streq (fieldValue post_id) []) eqn:Eid.
  { intros H. injection H as <- <-. left. eauto. }
  apply streq_false in Eid.
  destruct (chooseFormat_cases (fieldValue format))
    as [(Hf&->)|[(Hf&->)|[(Hf&->)|(_&_&_&->)]]].
  4: { intros H. injection H as <- <-. left. eauto. }
  all: destruct (fetchContentFromBetterMode fuel up (fieldValue post_id) w)
         as [[[[c t] e] w1]|]; [|discriminate].
  all: destruct e as [e|]; intros H; injection H as <- <-.
  all: first [ right; left; eexists; reflexivity
             | right; right; eexists; exists post_id, format;
               repeat split; cbn [PostID Format]; auto ].
Qed.

Lemma getContent_answers_witness :
  (exists msg, httpError (str "Post ID is required") StatusBadRequest
               = httpError msg StatusBadRequest /\ world0 = world0)
  \/ (exists err,
         httpError (str "Post ID is required") StatusBadRequest
         = httpError (str "Error fetching content: " ++ err)
                     StatusInternalServerError)
  \/ (exists resp post_id format,
         Object None (Some (str "text")) = Object post_id format
         /\ httpError (str "Post ID is required") StatusBadRequest
            = renderJSON resp
         /\ PostID resp = fieldValue post_id /\ PostID resp <> []
         /\ ((Format resp = str "html"
              /\ (fieldValue format = [] \/ fieldValue format = str "html"))
             \/ (Format resp = str "text" /\ fieldValue format = str "text"))).
Proof.
  apply (getContent_answers 1 (serving sample) noPrint htmlReplacements
           (Object None (Some (str "text"))) world0 world0).
  reflexivity.
Defined.

(** X10: in a response of format html the content is never empty, so the
    count of the response is at least 1. *)
Theorem html_content_not_empty (fuel : nat) (up : Upstream)
  (printTable : Z -> bool) (order : list (gostring * gostring))
  (body : RequestBody) (w w' : World) (resp : ContentResponse) :
  mapOrder order ->
  getContent fuel up printTable order body w = Some (renderJSON resp, w') ->
  Format resp = str "html" ->
  Content resp <> [] /\ 1 <= CharCount resp.
Proof.
  intros Ho. unfold getContent. destruct (Decode body) as [req|]; [|discriminate].
  destruct (streq (reqPostID req) []); [discriminate|].
  destruct (chooseFormat_cases (reqFormat req))
    as [(Hf&->)|[(Hf&->)|[(Hf&->)|(_&_&_&->)]]]; try discriminate.
  3: { destruct (fetchContentFromBetterMode fuel up (reqPostID req) w)
         as [[[[c t] [e|]] w1]|]; try discriminate.
       intros H. injection H as <- <-. cbn [Format]. discriminate. }
  all: destruct (fetchContentFromBetterMode fuel up (reqPostID req) w)
         as [[[[c t] [e|]] w1]|] eqn:EF; try discriminate;
       intros H; injection H as <- <-; intros _;
       cbn [Content CharCount];
       replace (streq (str "html") (str "text")) with false by reflexivity;
       apply fetch_ok_nonempty in EF;
       pose proof (cleanupContent_nonempty printTable order c
                     (mapOrder_sub order Ho) EF) as H2;
       (split; [exact H2|]);
       destruct (cleanupContent printTable order c); [contradiction|];
       cbn [List.length]; lia.
Qed.

Lemma html_content_not_empty_witness :
  cleanupContent noPrint htmlReplacements sample <> [].
Proof.
  apply (html_content_not_empty 1 (serving sample) noPrint htmlReplacements
           (Object (Some (str "rYDKVA8XqjSsqHK")) None) world0
           (afterPostCall (serving sample)
              (snd (RefreshToken (serving sample) world0)))
           {| Content := cleanupContent noPrint htmlReplacements sample;
              Format := str "html"; PostID := str "rYDKVA8XqjSsqHK";
              Title := str "Title";
              CharCount := Z.of_nat (List.length
                 (cleanupContent noPrint htmlReplacements sample)) |}).
  - apply Permutation_refl.
  - vm_compute. reflexivity.
  - reflexivity.
Defined.

(** ** stripHTMLTags: a tag that is not closed, and text with nothing to strip *)

Lemma decode_before_lt (p q : gostring) :
  p <> [] ->
  utf8.DecodeRuneInString (p ++ "<"%char :: q) = utf8.DecodeRuneInString p.
Proof.
  destruct p as [|c0 p]; [contradiction|]. intros _.
  cbn [app]. unfold utf8.DecodeRuneInString.
  destruct (utf8.first (byteVal c0)) as [| |sz lo hi] eqn:Ef; auto.
  apply first_inv in Ef.
  assert (Hlo : utf8.inRange 60 lo hi = false) by (unfold utf8.inRange; lia).
  assert (Hcb : utf8.inRange 60 utf8.locb utf8.hicb = false) by reflexivity.
  assert (Hsz : sz = 2%nat \/ sz = 3%nat \/ sz = 4%nat) by lia.
  clear Ef.
  destruct p as [|c1 p]; [|destruct p as [|c2 p]; [|destruct p as [|c3 p]]].
  all: destruct Hsz as [-> | [-> | ->]]; cbn; try rewrite Hlo; cbn [negb].
  all: repeat first
         [ reflexivity
         | match goal with
           | |- context [if ?b then _ else _] => destruct b
           end ].
Qed.

Lemma scanTags_in_tag (rest : gostring) :
  ~ In ">"%char rest -> forall skip, scanTags skip true rest = [].
Proof.
  induction rest as [|c t IH]; intros Hno skip; [reflexivity|].
  assert (Ht : ~ In ">"%char t) by (intros H; apply Hno; now right).
  cbn [scanTags]. destruct skip as [|k]; [|now apply IH].
  destruct (utf8.DecodeRuneInString (c :: t)) as [r w] eqn:Ed.
  destruct (r =? lt_rune); [now apply IH|].
  destruct (r =? gt_rune) eqn:Egt; [|now apply IH].
  exfalso. unfold gt_rune in Egt. apply decode_spec in Ed.
  destruct Ed as [E|c' t' E Hc Hr|c' t' E Hc Hr|c' p q E _ _ _ _ Hr].
  - discriminate.
  - injection E as <- <-. apply Hno. left.
    rewrite <- (byteOf_byteVal c). replace (byteVal c) with 62 by lia.
    reflexivity.
  - unfold utf8.RuneError in Hr. lia.
  - lia.
Qed.

Lemma scanTags_open_tag (rest : gostring) :
  ~ In ">"%char rest ->
  forall pre skip inTag,
    (skip <= List.length pre)%nat ->
    scanTags skip inTag (pre ++ "<"%char :: rest) = scanTags skip inTag pre.
Proof.
  intros Hno. induction pre as [|c t IH]; intros skip inTag Hskip.
  - assert (skip = 0%nat) by (cbn in Hskip; lia). subst skip.
    cbn. now apply scanTags_in_tag.
  - cbn [app scanTags]. destruct skip as [|k].
    + change (c :: t ++ "<"%char :: rest) with ((c :: t) ++ "<"%char :: rest).
      rewrite decode_before_lt by discriminate.
      destruct (utf8.DecodeRuneInString (c :: t)) as [r w] eqn:Ed.
      apply decode_width in Ed; [|discriminate]. cbn [List.length] in Ed.
      rewrite !IH by lia. reflexivity.
    + apply IH. cbn [List.length] in Hskip. lia.
Qed.

(** X12: a [<] that no [>] follows swallows the rest of the text:
    [stripHTMLTags] gives what it gives for the text before that [<]. *)
Theorem stripHTMLTags_open_tag (pre rest : gostring) :
  ~ In ">"%char rest ->
  stripHTMLTags (pre ++ "<"%char :: rest) = stripHTMLTags pre.
Proof.
  intros Hno. unfold stripHTMLTags.
  rewrite scanTags_open_tag by (auto; lia). reflexivity.
Qed.

Lemma stripHTMLTags_open_tag_witness :
  stripHTMLTags (str "if a " ++ "<"%char :: str " b then stop")
  = stripHTMLTags (str "if a ").
Proof.
  apply stripHTMLTags_open_tag. vm_compute. intuition discriminate.
Defined.

(** *** Text with nothing to strip *)

Lemma scanTags_valid (s : gostring) :
  (forall c, In c s -> c <> "<"%char /\ c <> ">"%char) ->
  forall skip,
    validString skip s = true -> scanTags skip false s = skipn skip s.
Proof.
  remember (List.length s) as n eqn:Hn. revert s Hn.
  induction n as [n IH] using lt_wf_ind. intros s Hn Hno skip Hv.
  destruct s as [|c t]; [destruct skip; reflexivity|].
  assert (Ht : forall c', In c' t -> c' <> "<"%char /\ c' <> ">"%char)
    by (intros c' H; apply Hno; now right).
  cbn [scanTags validString] in *. destruct skip as [|k].
  2: { cbn [skipn]. apply (IH (List.length t)); auto. subst n. cbn. lia. }
  destruct (utf8.DecodeRuneInString (c :: t)) as [r w] eqn:Ed.
  apply andb_true_iff in Hv as [Hok Hv].
  pose proof (decode_spec _ _ _ Ed) as Hd.
  destruct Hd as [E|c' t' E Hc Hr Hw|c' t' E Hc Hr Hw|c' p q E Henc Hw H2 Hc Hr Hval _].
  - discriminate.
  - injection E as <- <-. subst r w.
    destruct (Hno c (or_introl eq_refl)) as [Hlt Hgt].
    assert (byteVal c <> 60).
    { intros H. apply Hlt. rewrite <- (byteOf_byteVal c), H. reflexivity. }
    assert (byteVal c <> 62).
    { intros H'. apply Hgt. rewrite <- (byteOf_byteVal c), H'. reflexivity. }
    pose proof (byteVal_range c).
    replace (byteVal c =? lt_rune) with false by (unfold lt_rune; lia).
    replace (byteVal c =? gt_rune) with false by (unfold gt_rune; lia).
    cbn [negb Nat.sub skipn].
    unfold utf8.EncodeRune.
    replace ((0 <=? byteVal c) && (byteVal c <=? 127)) with true by lia.
    rewrite byteOf_byteVal. cbn [app]. f_equal.
    apply (IH (List.length t)); auto. subst n. cbn. lia.
  - subst r w. cbn in Hok. discriminate.
  - replace (r =? lt_rune) with false by (unfold lt_rune; lia).
    replace (r =? gt_rune) with false by (unfold gt_rune; lia).
    cbn [negb skipn]. rewrite Henc. injection E as <- ->.
    replace (w - 1)%nat with (List.length p) in * by (cbn in Hw; lia).
    rewrite (IH (List.length (p ++ q))); auto.
    + rewrite skipn_app, skipn_all, Nat.sub_diag. reflexivity.
    + subst n. cbn. lia.
Qed.

Lemma trimLeft_id (s : gostring) :
  s = [] \/ unicode.IsSpace (fst (utf8.DecodeRuneInString s)) = false ->
  strings.trimLeft 0 s = s.
Proof.
  intros [-> | H]; [reflexivity|]. destruct s as [|c t]; [reflexivity|].
  cbn [strings.trimLeft].
  destruct (utf8.DecodeRuneInString (c :: t)) as [r w]. cbn [fst] in H.
  now rewrite H.
Qed.

Lemma trimRight_id (n : nat) (s : gostring) :
  s = [] \/ unicode.IsSpace (fst (utf8.DecodeLastRuneInString s)) = false ->
  strings.trimRight n s = s.
Proof.
  intros [-> | H]; [destruct n; reflexivity|]. destruct n; [reflexivity|].
  destruct s as [|c t]; [reflexivity|]. cbn [strings.trimRight].
  destruct (utf8.DecodeLastRuneInString (c :: t)) as [r w]. cbn [fst] in H.
  now rewrite H.
Qed.

(** X13: [stripHTMLTags] gives a text back as it is when the text is valid
    UTF-8, holds no [<] and no [>], no [&nbsp;], no two line feeds in a row
    and no two spaces in a row, and neither starts nor ends with white
    space. *)
Theorem stripHTMLTags_plain_text (s : gostring) :
  validString 0 s = true ->
  (forall c, In c s -> c <> "<"%char /\ c <> ">"%char) ->
  ~ occurs (str "&nbsp;") s ->
  ~ occurs (newline ++ newline) s ->
  ~ occurs (str "  ") s ->
  s = []
  \/ (unicode.IsSpace (fst (utf8.DecodeRuneInString s)) = false
      /\ unicode.IsSpace (fst (utf8.DecodeLastRuneInString s)) = false) ->
  stripHTMLTags s = s.
Proof.
  intros Hv Hno Hnbsp Hnl Hsp Hends. unfold stripHTMLTags.
  rewrite scanTags_valid by assumption. cbn [skipn].
  rewrite (ReplaceAll_eq s (str "&nbsp;")) by discriminate.
  rewrite replaceFrom_absent by (assumption || discriminate).
  rewrite (ReplaceAll_eq s (newline ++ newline)) by discriminate.
  rewrite replaceFrom_absent by (assumption || discriminate).
  assert (Hc : collapseSpaces (List.length s) s = s).
  { apply Contains_false in Hsp. destruct (List.length s); cbn [collapseSpaces];
      [reflexivity|]. now rewrite Hsp. }
  rewrite Hc. unfold strings.TrimSpace.
  rewrite trimLeft_id by tauto. apply trimRight_id. tauto.
Qed.

Lemma stripHTMLTags_plain_text_witness : stripHTMLTags plainText = plainText.
Proof.
  apply stripHTMLTags_plain_text.
  - vm_compute. reflexivity.
  - intros c H. vm_compute in H.
    repeat (destruct H as [<-|H]; [split; discriminate|]). destruct H.
  - apply Contains_false. vm_compute. reflexivity.
  - apply Contains_false. vm_compute. reflexivity.
  - apply Contains_false. vm_compute. reflexivity.
  - right. split; vm_compute; reflexivity.
Defined.

(** ** Start-up and the token endpoints *)

Lemma RefreshToken_failed (up : Upstream) (w : World) (err : gostring) :
  fst (RefreshToken up w) = Some err ->
  snd (RefreshToken up w) = afterTokenCall up w.
Proof.
  destruct (RefreshToken_cases up w) as [(e & ->)|(st & tok & _ & _ & ->)];
    [reflexivity|discriminate].
Qed.

(** X14: when the refresh of [NewTokenManager] fails, the manager starts
    with an empty token; the status endpoint then shows an empty preview,
    [is_valid] false and, the clock being past the Unix epoch, the smallest
    duration as the time left; one token query has been sent, and the first
    [GetToken] sends the second. *)
Theorem NewTokenManager_failed_start (up : Upstream) (domain : gostring)
  (now : Z) (err : gostring) :
  fst (RefreshToken up (startWorld domain now)) = Some err ->
  0 <= now ->
  accessToken (tm (NewTokenManager up domain now)) = []
  /\ token_preview (handleTokenStatus (NewTokenManager up domain now)) = []
  /\ is_valid (handleTokenStatus (NewTokenManager up domain now)) = false
  /\ expires_in (handleTokenStatus (NewTokenManager up domain now))
     = minDuration
  /\ tokenCalls (NewTokenManager up domain now) = 1%nat
  /\ tokenCalls (snd (GetToken up (NewTokenManager up domain now))) = 2%nat.
Proof.
  intros Herr Hnow. unfold NewTokenManager.
  rewrite (RefreshToken_failed _ _ _ Herr).
  set (w := afterTokenCall up (startWorld domain now)).
  assert (Hclock : 0 <= clock w).
  { cbn. unfold elapsed. lia. }
  repeat split; try reflexivity.
  - cbn [handleTokenStatus is_valid]. cbn [w afterTokenCall tm startWorld expiry].
    unfold zeroTime. lia.
  - cbn [handleTokenStatus expires_in]. unfold Sub.
    cbn [w afterTokenCall tm startWorld expiry] in *.
    fold w. unfold zeroTime, minDuration.
    destruct (_ <? _) eqn:E; [reflexivity|]. lia.
  - unfold GetToken. cbn [w afterTokenCall tm startWorld accessToken streq orb].
    pose proof (RefreshToken_counts up w) as [Hc _].
    unfold w in Hc at 2. cbn [afterTokenCall tokenCalls startWorld] in Hc.
    fold w. destruct (RefreshToken up w) as [[e|] w2]; exact Hc.
Qed.

Lemma NewTokenManager_failed_start_witness :
  accessToken (tm (NewTokenManager unreachable (str "www.gpters.org")
                                   1762128000000000000)) = []
  /\ token_preview (handleTokenStatus
       (NewTokenManager unreachable (str "www.gpters.org")
                        1762128000000000000)) = []
  /\ is_valid (handleTokenStatus
       (NewTokenManager unreachable (str "www.gpters.org")
                        1762128000000000000)) = false
  /\ expires_in (handleTokenStatus
       (NewTokenManager unreachable (str "www.gpters.org")
                        1762128000000000000)) = minDuration
  /\ tokenCalls (NewTokenManager unreachable (str "www.gpters.org")
                                 1762128000000000000) = 1%nat
  /\ tokenCalls (snd (GetToken unreachable
       (NewTokenManager unreachable (str "www.gpters.org")
                        1762128000000000000))) = 2%nat.
Proof.
  apply (NewTokenManager_failed_start unreachable (str "www.gpters.org")
           1762128000000000000
           (str "error sending token request: dial tcp: connection refused")).
  - reflexivity.
  - discriminate.
Defined.

(** X15: [handleTokenRefresh] answers a failed refresh with status 500 and
    the message of the error after [Failed to refresh token: ], the stored
    credential being what it was.  After a refresh that succeeded, [d]
    nanoseconds later: [GetToken] returns the stored token and sends nothing
    when [d] is at most 23 hours and 55 minutes, and the status endpoint
    shows [is_valid] exactly when [d] is less than 24 hours, and 24 hours
    less [d] as the time left (the smallest duration where that does not
    fit). *)
Theorem handleTokenRefresh_answers (up : Upstream) (w : World) :
  match handleTokenRefresh up w with
  | (refreshError msg code, w') =>
    code = StatusInternalServerError /\ tm w' = tm w
    /\ exists err, msg = str "Failed to refresh token: " ++ err
                   /\ fst (RefreshToken up w) = Some err
  | (refreshJSON _ _, w') =>
    forall d : N,
      (Z.of_N d <= 24 * Hour - 5 * Minute ->
       GetToken up (wait d w') = ((accessToken (tm w'), None), wait d w'))
      /\ is_valid (handleTokenStatus (wait d w')) = (Z.of_N d <? 24 * Hour)
      /\ expires_in (handleTokenStatus (wait d w'))
         = Z.max minDuration (24 * Hour - Z.of_N d)
  end.
Proof.
  unfold handleTokenRefresh.
  destruct (RefreshToken up w) as [[e|] w'] eqn:ER.
  - split; [reflexivity|]. split; [|eauto].
    destruct (RefreshToken_cases up w) as [(e' & H)|(st & tok & _ & _ & H)];
      rewrite H in ER; [|discriminate]. now injection ER as _ <-.
  - intros d. apply RefreshToken_ok in ER as (Hne & Hexp & _).
    split; [|split].
    + intros Hd. apply (GetToken_fresh up (wait d w')); [exact Hne|].
      cbn [wait tm clock]. lia.
    + cbn [handleTokenStatus is_valid wait tm clock]. rewrite Hexp.
      unfold Hour, Minute. lia.
    + cbn [handleTokenStatus expires_in wait tm clock]. rewrite Hexp.
      unfold Sub, minDuration, maxDuration, Hour, Minute.
      change (2 ^ 63) with 9223372036854775808.
      repeat match goal with
             | |- context [?a <? ?b] => destruct (Z.ltb_spec a b)
             end; lia.
Qed.

(** X16: when the status endpoint shows [is_valid] false, the next
    [GetToken] sends a token query; when [GetToken] sends none, the status
    endpoint shows [is_valid] true and at least 5 minutes left, and the
    token is not empty. *)
Theorem status_and_GetToken (up : Upstream) (w : World) :
  (is_valid (handleTokenStatus w) = false ->
   tokenCalls (snd (GetToken up w)) = S (tokenCalls w))
  /\ (tokenCalls (snd (GetToken up w)) = tokenCalls w ->
      is_valid (handleTokenStatus w) = true
      /\ 5 * Minute <= expires_in (handleTokenStatus w)
      /\ accessToken (tm w) <> []).
Proof.
  assert (Hstale : streq (accessToken (tm w)) [] || nearExpiry w = true ->
                   tokenCalls (snd (GetToken up w)) = S (tokenCalls w)).
  { intros E. unfold GetToken. rewrite E.
    pose proof (RefreshToken_counts up w) as [Hc _].
    destruct (RefreshToken up w) as [[e|] w2]; exact Hc. }
  split.
  - intros H. apply Hstale. apply orb_true_iff. right.
    cbn [handleTokenStatus is_valid] in H. apply nearExpiry_true.
    unfold Minute. lia.
  - intros H.
    destruct (streq (accessToken (tm w)) [] || nearExpiry w) eqn:E.
    { specialize (Hstale eq_refl). lia. }
    apply orb_false_iff in E as [E1 E2]. apply streq_false in E1.
    apply nearExpiry_false in E2.
    cbn [handleTokenStatus is_valid expires_in]. unfold Sub.
    unfold Minute, minDuration, maxDuration in *.
    change (2 ^ 63) with 9223372036854775808.
    split; [lia|]. split; [|exact E1].
    destruct (expiry (tm w) - clock w <? _) eqn:Ea; [lia|].
    destruct (_ <? expiry (tm w) - clock w) eqn:Eb; lia.
Qed.

Lemma status_and_GetToken_witness :
  tokenCalls (snd (GetToken (serving sample)
                            (holding (str "stored") 1000 2000)))
  = S (tokenCalls (holding (str "stored") 1000 2000)).
Proof.
  apply (proj1 (status_and_GetToken (serving sample)
                  (holding (str "stored") 1000 2000))).
  reflexivity.
Defined.

(** ** An invariant of the server *)

Lemma credentialOK_later (up : Upstream) (w w' : World) :
  tm w' = tm w -> clock w <= clock w' ->
  (tokenCalls w <= tokenCalls w')%nat ->
  credentialOK up w -> credentialOK up w'.
Proof.
  intros Htm Hc Ht [[H1 H2]|(H1 & H2 & k & st & Hk & Hr)]; unfold credentialOK;
    rewrite Htm.
  - left. auto.
  - right. split; [exact H1|]. split; [lia|]. exists k, st. split; [lia|exact Hr].
Qed.

Lemma elapsed_nonneg (up : Upstream) (w : World) : 0 <= elapsed up w.
Proof. unfold elapsed. lia. Qed.

Lemma credentialOK_RefreshToken (up : Upstream) (w : World) :
  credentialOK up w -> credentialOK up (snd (RefreshToken up w)).
Proof.
  intros H. pose proof (elapsed_nonneg up w).
  destruct (RefreshToken_cases up w) as [(e & ->)|(st & tok & Hr & Hne & ->)];
    cbn [snd].
  - apply (credentialOK_later up w); cbn; auto; lia.
  - right. cbn. split; [exact Hne|]. split; [lia|]. exists (tokenCalls w), st.
    split; [lia|exact Hr].
Qed.

Lemma credentialOK_GetToken (up : Upstream) (w : World) :
  credentialOK up w -> credentialOK up (snd (GetToken up w)).
Proof.
  intros H. unfold GetToken.
  destruct (streq (accessToken (tm w)) [] || nearExpiry w); [|exact H].
  apply credentialOK_RefreshToken in H.
  destruct (RefreshToken up w) as [[e|] w']; exact H.
Qed.

Lemma credentialOK_fetch (up : Upstream) (postID : gostring) (fuel : nat) :
  forall w res w',
    credentialOK up w ->
    fetchContentFromBetterMode fuel up postID w = Some (res, w') ->
    credentialOK up w'.
Proof.
  induction fuel as [|fuel IH]; intros w res w' Hok; [discriminate|].
  cbn [fetchContentFromBetterMode].
  apply credentialOK_GetToken in Hok.
  destruct (GetToken up w) as [[token [e|]] w1]; cbn [snd] in Hok.
  { intros H. now injection H as _ <-. }
  assert (Hok2 : credentialOK up (afterPostCall up w1)).
  { pose proof (elapsed_nonneg up w1).
    apply (credentialOK_later up w1); cbn; auto; lia. }
  destruct (postReply up (postCalls w1) token postID) as [e|st body].
  { intros H. now injection H as _ <-. }
  destruct (st =? StatusUnauthorized).
  - apply credentialOK_RefreshToken in Hok2.
    destruct (RefreshToken up (afterPostCall up w1)) as [[e|] w3];
      cbn [snd] in Hok2.
    + intros H. now injection H as _ <-.
    + now apply IH.
  - destruct body as [e|e|postResp]; try (intros H; now injection H as _ <-).
    destruct (streq (findContent (MappingFields postResp)) []);
      intros H; now injection H as _ <-.
Qed.

Lemma credentialOK_getContent (fuel : nat) (up : Upstream)
  (printTable : Z -> bool) (order : list (gostring * gostring))
  (body : RequestBody) (w w' : World) (resp : HttpResponse) :
  credentialOK up w ->
  getContent fuel up printTable order body w = Some (resp, w') ->
  credentialOK up w'.
Proof.
  intros Hok. unfold getContent.
  destruct (Decode body) as [req|]; [|intros H; now injection H as _ <-].
  destruct (streq (reqPostID req) []); [intros H; now injection H as _ <-|].
  destruct (chooseFormat (reqFormat req));
    [|intros H; now injection H as _ <-].
  destruct (fetchContentFromBetterMode fuel up (reqPostID req) w)
    as [[[[c t] e] w1]|] eqn:EF; [|discriminate].
  apply (credentialOK_fetch up _ _ _ _ _ Hok) in EF.
  destruct e; intros H; now injection H as _ <-.
Qed.

(** X17: in every state the server reaches from [NewTokenManager], through
    requests to [getContent] and [handleTokenRefresh] ([handleTokenStatus]
    writes nothing) and the passing of time, the stored credential is the empty token with the zero expiry, or a non-empty token
    that one of the token queries sent so far was answered with, with an
    expiry at most 24 hours ahead of the clock. *)
Theorem server_keeps_credential (up : Upstream) (w : World) :
  reachable up w -> credentialOK up w.
Proof.
  induction 1 as [domain now|d w _ IH|w _ IH
                  |fuel printTable order body w resp w' _ IH Hget].
  - unfold NewTokenManager. apply credentialOK_RefreshToken.
    left. split; reflexivity.
  - apply (credentialOK_later up w); cbn; auto; lia.
  - unfold handleTokenRefresh. apply credentialOK_RefreshToken in IH.
    destruct (RefreshToken up w) as [[e|] w']; exact IH.
  - eapply credentialOK_getContent; eassumption.
Qed.

Lemma server_keeps_credential_witness :
  credentialOK (rejecting 2 sample)
    (snd (handleTokenRefresh (rejecting 2 sample)
            (wait 5000 (NewTokenManager (rejecting 2 sample)
                          (str "www.gpters.org") 0)))).
Proof.
  apply server_keeps_credential.
  apply reach_refresh, reach_wait, reach_start.
Defined.

(** ** cleanupContent and the order of the replacement table *)

Lemma table_split (kv : gostring * gostring) :
  In kv htmlReplacements <-> kv = ampEntry \/ In kv plainEntries.
Proof.
  unfold htmlReplacements, plainEntries, ampEntry. cbn [In].
  intuition (subst; auto).
Qed.

Lemma plain_entry (kv : gostring * gostring) :
  In kv plainEntries ->
  exists u c, kv = ("&"%char :: u, [c]) /\ ~ In "&"%char u /\ c <> "&"%char.
Proof.
  intros H. unfold plainEntries in H. cbn [In] in H.
  repeat (destruct H as [<-|H];
          [eexists; eexists; split; [reflexivity|];
           split; [not_in_literal|not_in_literal]|]).
  destruct H.
Qed.

Lemma untouched_entity (e : gostring) : In e entities -> untouched e.
Proof.
  intros He kv Hkv c Hc.
  unfold entities, htmlReplacements in He. cbn [map fst In] in He.
  unfold plainEntries in Hkv. cbn [In] in Hkv.
  repeat (destruct He as [<-|He];
    [repeat (destruct Hkv as [<-|Hkv];
       [cbn [snd] in Hc; revert Hc; vm_compute;
        intuition (subst; discriminate)|]);
     destruct Hkv|]).
  destruct He.
Qed.

Lemma untouched_tl (x : ascii) (q : gostring) :
  untouched (x :: q) -> untouched q.
Proof.
  intros H kv Hkv c Hc Hin. apply (H kv Hkv c Hc). now right.
Qed.

Lemma plain_key_untouched (kv : gostring * gostring) :
  In kv plainEntries -> untouched (fst kv).
Proof.
  intros H. apply untouched_entity. unfold entities. apply in_map.
  apply table_split. now right.
Qed.

Lemma prefix_comparable (s a b : gostring) :
  strings.HasPrefix s a = true -> strings.HasPrefix s b = true ->
  strings.HasPrefix a b = true \/ strings.HasPrefix b a = true.
Proof.
  revert s b; induction a as [|x a IH]; intros s b Ha Hb.
  - right. destruct b; reflexivity.
  - destruct b as [|y b]; [left; reflexivity|].
    destruct s as [|c s]; [discriminate|]. cbn [strings.HasPrefix] in *.
    apply andb_true_iff in Ha as [Ha1 Ha2].
    apply andb_true_iff in Hb as [Hb1 Hb2].
    apply Ascii.eqb_eq in Ha1, Hb1. subst x y. rewrite Ascii.eqb_refl.
    cbn [andb]. eapply IH; eassumption.
Qed.

Lemma plain_prefix_free (kv kv' : gostring * gostring) :
  In kv plainEntries -> In kv' plainEntries ->
  strings.HasPrefix (fst kv) (fst kv') = true -> kv = kv'.
Proof.
  intros H H'. unfold plainEntries in H, H'. cbn [In] in H, H'.
  repeat (destruct H as [<-|H];
    [repeat (destruct H' as [<-|H'];
       [vm_compute; first [reflexivity | discriminate]|]);
     destruct H'|]).
  destruct H.
Qed.

Lemma plain_unique (s : gostring) (kv kv' : gostring * gostring) :
  In kv plainEntries -> In kv' plainEntries ->
  strings.HasPrefix s (fst kv) = true ->
  strings.HasPrefix s (fst kv') = true -> kv = kv'.
Proof.
  intros H H' Hp Hp'.
  destruct (prefix_comparable s _ _ Hp Hp') as [E|E].
  - now apply plain_prefix_free.
  - symmetry. now apply plain_prefix_free.
Qed.

(** *** lookupPrefix *)

Lemma lookupPrefix_Some (l : list (gostring * gostring)) (s : gostring)
  (kv : gostring * gostring) :
  lookupPrefix l s = Some kv ->
  In kv l /\ strings.HasPrefix s (fst kv) = true.
Proof.
  induction l as [|e l IH]; cbn [lookupPrefix]; [discriminate|].
  destruct (strings.HasPrefix s (fst e)) eqn:E.
  - intros H. injection H as <-. split; [now left|exact E].
  - intros H. destruct (IH H). split; [now right|assumption].
Qed.

Lemma lookupPrefix_None (l : list (gostring * gostring)) (s : gostring) :
  lookupPrefix l s = None <->
  forall kv, In kv l -> strings.HasPrefix s (fst kv) = false.
Proof.
  induction l as [|e l IH]; cbn [lookupPrefix].
  - split; [intros _ kv []|reflexivity].
  - destruct (strings.HasPrefix s (fst e)) eqn:E.
    + split; [discriminate|]. intros H. specialize (H e (or_introl eq_refl)).
      congruence.
    + rewrite IH. split.
      * intros H kv [<-|Hk]; auto.
      * intros H kv Hk. apply H. now right.
Qed.

Lemma lookupPrefix_found (l : list (gostring * gostring)) (s : gostring)
  (kv : gostring * gostring) :
  plainTable l -> In kv l -> strings.HasPrefix s (fst kv) = true ->
  lookupPrefix l s = Some kv.
Proof.
  intros Hl Hin Hp. destruct (lookupPrefix l s) as [kv'|] eqn:E.
  - apply lookupPrefix_Some in E as [Hin' Hp']. f_equal.
    apply (plain_unique s); auto.
  - rewrite lookupPrefix_None in E. specialize (E kv Hin). congruence.
Qed.

(** *** replacePass *)

Lemma replacePass_skip (l : list (gostring * gostring)) (pre rest : gostring) :
  replacePass l (List.length pre) (pre ++ rest) = replacePass l 0 rest.
Proof. induction pre as [|c pre IH]; [reflexivity|apply IH]. Qed.

Lemma replacePass_nil (s : gostring) : replacePass [] 0 s = s.
Proof. induction s as [|c s IH]; [reflexivity|]. cbn. now rewrite IH. Qed.

Lemma replacePass_match (l : list (gostring * gostring))
  (kv : gostring * gostring) (rest : gostring) :
  plainTable l -> In kv l ->
  replacePass l 0 (fst kv ++ rest) = snd kv ++ replacePass l 0 rest.
Proof.
  intros Hl Hin.
  destruct (plain_entry kv (Hl kv Hin)) as (u & c & -> & _ & _).
  cbn [fst snd app replacePass].
  rewrite (lookupPrefix_found l _ ("&"%char :: u, [c]) Hl Hin)
    by (apply HasPrefix_true; exists rest; reflexivity).
  cbn [fst snd].
  replace (List.length ("&"%char :: u) - 1)%nat with (List.length u)
    by (cbn [List.length]; lia).
  now rewrite replacePass_skip.
Qed.

Lemma replacePass_nomatch (l : list (gostring * gostring)) (c : ascii)
  (t : gostring) :
  lookupPrefix l (c :: t) = None ->
  replacePass l 0 (c :: t) = c :: replacePass l 0 t.
Proof. intros H. cbn [replacePass]. now rewrite H. Qed.

Lemma lookupPrefix_not_amp (l : list (gostring * gostring)) (c : ascii)
  (t : gostring) :
  plainTable l -> c <> "&"%char -> lookupPrefix l (c :: t) = None.
Proof.
  intros Hl Hc. apply lookupPrefix_None. intros kv Hin.
  destruct (plain_entry kv (Hl kv Hin)) as (u & c' & -> & _ & _).
  cbn [fst strings.HasPrefix].
  destruct (Ascii.eqb c "&"%char) eqn:E; [|reflexivity].
  apply Ascii.eqb_eq in E. contradiction.
Qed.

Lemma replacePass_plain (l : list (gostring * gostring)) (u rest : gostring) :
  plainTable l -> ~ In "&"%char u ->
  replacePass l 0 (u ++ rest) = u ++ replacePass l 0 rest.
Proof.
  intros Hl. induction u as [|c u IH]; intros Hu; [reflexivity|].
  cbn [app]. rewrite replacePass_nomatch.
  - f_equal. apply IH. intros H. apply Hu. now right.
  - apply lookupPrefix_not_amp; [exact Hl|]. intros ->. apply Hu. now left.
Qed.

Lemma passed_prefix (l : list (gostring * gostring)) :
  plainTable l ->
  forall t q, untouched q ->
    strings.HasPrefix (replacePass l 0 t) q = true ->
    strings.HasPrefix t q = true.
Proof.
  intros Hl. induction t as [|c t IH]; intros q Hq; [auto|].
  destruct q as [|x q]; [reflexivity|].
  cbn [replacePass].
  destruct (lookupPrefix l (c :: t)) as [kv|] eqn:E.
  - apply lookupPrefix_Some in E as [Hin _].
    destruct (plain_entry kv (Hl kv Hin)) as (u & c' & Hkv & _ & _).
    intros H. exfalso. rewrite Hkv in H. cbn [snd app strings.HasPrefix] in H.
    apply andb_true_iff in H as [H _]. apply Ascii.eqb_eq in H.
    apply (Hq kv (Hl kv Hin) c'); [rewrite Hkv; now left|]. left. now symmetry.
  - cbn [strings.HasPrefix]. rewrite !andb_true_iff. intros [Hx Hp].
    split; [exact Hx|]. apply IH; [|exact Hp]. eapply untouched_tl, Hq.
Qed.

Lemma passed_prefix_cons (l : list (gostring * gostring)) (c : ascii)
  (t q : gostring) :
  plainTable l -> untouched q ->
  strings.HasPrefix (c :: replacePass l 0 t) q = true ->
  strings.HasPrefix (c :: t) q = true.
Proof.
  intros Hl Hq. destruct q as [|x q]; [reflexivity|]. cbn [strings.HasPrefix].
  rewrite !andb_true_iff. intros [Hx Hp]. split; [exact Hx|].
  apply (passed_prefix l Hl); [|exact Hp]. eapply untouched_tl, Hq.
Qed.

(** Induction along the way [replacePass] walks a string. *)
Lemma pass_ind (l : list (gostring * gostring)) (P : gostring -> Prop) :
  plainTable l ->
  P [] ->
  (forall c t, lookupPrefix l (c :: t) = None -> P t -> P (c :: t)) ->
  (forall kv rest, In kv l -> P rest -> P (fst kv ++ rest)) ->
  forall s, P s.
Proof.
  intros Hl Hnil Hstep Hmatch s.
  remember (List.length s) as n eqn:Hn.
  revert s Hn. induction n as [n IH] using lt_wf_ind. intros s Hn.
  destruct s as [|c t]; [exact Hnil|].
  destruct (lookupPrefix l (c :: t)) as [kv|] eqn:E.
  - apply lookupPrefix_Some in E as [Hin Hp].
    apply HasPrefix_true in Hp as (rest & Hp). rewrite Hp.
    apply Hmatch; [exact Hin|]. apply (IH (List.length rest)); [|reflexivity].
    subst n. rewrite Hp, length_app.
    destruct (plain_entry kv (Hl kv Hin)) as (u & c' & -> & _). cbn. lia.
  - apply Hstep; [exact E|]. apply (IH (List.length t)); [|reflexivity].
    subst n. cbn. lia.
Qed.

Lemma passed_occurs (l : list (gostring * gostring)) (q : gostring) :
  plainTable l -> untouched q ->
  forall s, occurs q (replacePass l 0 s) -> occurs q s.
Proof.
  intros Hl Hq.
  apply (pass_ind l (fun s => occurs q (replacePass l 0 s) -> occurs q s));
    [exact Hl|auto| |].
  - intros c t E IH. rewrite replacePass_nomatch by exact E.
    rewrite !occurs_cons. intros [H|H].
    + left. now apply (passed_prefix_cons l).
    + right. now apply IH.
  - intros kv rest Hin IH. rewrite replacePass_match by assumption.
    destruct (plain_entry kv (Hl kv Hin)) as (u & c & Hkv & _).
    rewrite Hkv. cbn [fst snd app]. rewrite occurs_cons. intros [H|H].
    + destruct q as [|x q]; [exists [], ("&"%char :: u ++ rest); reflexivity|].
      cbn [strings.HasPrefix] in H. apply andb_true_iff in H as [H _].
      apply Ascii.eqb_eq in H. exfalso.
      apply (Hq kv (Hl kv Hin) c); [rewrite Hkv; now left|]. left.
      now symmetry.
    + apply IH in H. apply (occurs_app q ("&"%char :: u) rest []) in H.
      now rewrite app_nil_r in H.
Qed.

(** One more entry, replaced over the whole string after the pass, is one
    more entry in the pass. *)
Lemma replace_after_pass (l : list (gostring * gostring))
  (kv : gostring * gostring) :
  plainTable l -> In kv plainEntries ->
  forall s,
    strings.replaceFrom 0 (replacePass l 0 s) (fst kv) (snd kv)
    = replacePass (kv :: l) 0 s.
Proof.
  intros Hl Hkv.
  assert (Hl' : plainTable (kv :: l)) by (intros e [<-|He]; auto).
  destruct (plain_entry kv Hkv) as (u & v & Ekv & Hu & Hv).
  assert (Hne : fst kv <> []) by (rewrite Ekv; discriminate).
  intros s. remember (List.length s) as n eqn:Hn.
  revert s Hn. induction n as [n IH] using lt_wf_ind. intros s Hn.
  destruct s as [|c t]; [reflexivity|].
  destruct (lookupPrefix l (c :: t)) as [q|] eqn:E.
  - apply lookupPrefix_Some in E as [Hin Hp].
    apply HasPrefix_true in Hp as (rest & Hp). rewrite Hp.
    rewrite (replacePass_match l q rest Hl Hin).
    rewrite (replacePass_match (kv :: l) q rest Hl' (or_intror Hin)).
    destruct (plain_entry q (Hl q Hin)) as (uq & cq & Eq & _ & Hcq).
    rewrite Eq in *. cbn [fst snd app] in *.
    rewrite replaceFrom_nomatch.
    + f_equal. apply (IH (List.length rest)); [|reflexivity].
      subst n. rewrite Hp. cbn [List.length]. rewrite length_app. lia.
    + rewrite Ekv. cbn [fst strings.HasPrefix].
      destruct (Ascii.eqb cq "&"%char) eqn:E; [|reflexivity].
      apply Ascii.eqb_eq in E. contradiction.
  - rewrite replacePass_nomatch by exact E.
    destruct (strings.HasPrefix (c :: t) (fst kv)) eqn:Ep.
    + apply HasPrefix_true in Ep as (rest & Ep).
      assert (Hlen : (List.length rest < n)%nat).
      { subst n. rewrite Ep, length_app, Ekv. cbn. lia. }
      rewrite Ekv in Ep. cbn [fst app] in Ep. injection Ep as -> ->.
      replace ("&"%char :: u ++ rest) with (fst kv ++ rest)
        by now rewrite Ekv.
      rewrite (replacePass_match (kv :: l) kv rest Hl' (or_introl eq_refl)).
      rewrite replacePass_plain by assumption.
      specialize (IH (List.length rest) Hlen rest eq_refl).
      rewrite <- IH. rewrite Ekv. cbn [fst snd].
      change ("&"%char :: u ++ replacePass l 0 rest)
        with (("&"%char :: u) ++ replacePass l 0 rest).
      now rewrite replaceFrom_match by discriminate.
    + rewrite replaceFrom_nomatch.
      * rewrite (IH (List.length t)); [|subst n; cbn; lia|reflexivity].
        symmetry. apply replacePass_nomatch.
        cbn [lookupPrefix]. now rewrite Ep.
      * destruct (strings.HasPrefix (c :: replacePass l 0 t) (fst kv)) eqn:Eq;
          [|reflexivity].
        apply (passed_prefix_cons l) in Eq; [congruence|exact Hl|].
        now apply plain_key_untouched.
Qed.

Lemma lookupPrefix_perm (l l' : list (gostring * gostring)) (s : gostring) :
  plainTable l -> Permutation l l' -> lookupPrefix l s = lookupPrefix l' s.
Proof.
  intros Hl Hp.
  assert (Hl' : plainTable l').
  { intros kv H. apply Hl. eapply Permutation_in; [|exact H].
    now apply Permutation_sym. }
  destruct (lookupPrefix l s) as [kv|] eqn:E.
  - apply lookupPrefix_Some in E as [Hin Hpre]. symmetry.
    apply lookupPrefix_found; [exact Hl'| |exact Hpre].
    eapply Permutation_in; eassumption.
  - symmetry. apply lookupPrefix_None. intros kv Hin.
    rewrite lookupPrefix_None in E. apply E.
    eapply Permutation_in; [|exact Hin]. now apply Permutation_sym.
Qed.

Lemma replacePass_perm (l l' : list (gostring * gostring)) :
  plainTable l -> Permutation l l' ->
  forall s skip, replacePass l skip s = replacePass l' skip s.
Proof.
  intros Hl Hp. induction s as [|c t IH]; intros skip; [reflexivity|].
  cbn [replacePass]. destruct skip as [|k]; [|apply IH].
  rewrite (lookupPrefix_perm l l' (c :: t) Hl Hp).
  destruct (lookupPrefix l' (c :: t)); now rewrite IH.
Qed.

Lemma notAmp_plain (kv : gostring * gostring) :
  In kv plainEntries -> notAmp kv = true.
Proof.
  intros H. unfold plainEntries in H. cbn [In] in H.
  repeat (destruct H as [<-|H]; [reflexivity|]). destruct H.
Qed.

Lemma replaceEntities_pass (order : list (gostring * gostring)) :
  (forall kv, In kv order -> In kv htmlReplacements) ->
  forall l s,
    plainTable l -> ~ occurs (str "&amp;") s ->
    replaceEntities order (replacePass l 0 s)
    = replacePass (rev (filter notAmp order) ++ l) 0 s.
Proof.
  induction order as [|kv order IH]; intros Hsub l s Hl Hamp; [reflexivity|].
  rewrite replaceEntities_cons.
  assert (Hsub' : forall kv', In kv' order -> In kv' htmlReplacements)
    by (intros kv' H; apply Hsub; now right).
  destruct (proj1 (table_split kv) (Hsub kv (or_introl eq_refl))) as [->|Hkv].
  - cbn [filter]. replace (notAmp ampEntry) with false by reflexivity.
    unfold ampEntry. cbn [fst snd].
    rewrite ReplaceAll_eq by discriminate.
    rewrite replaceFrom_absent; [now apply IH|discriminate|].
    intros H. apply Hamp. apply (passed_occurs l) in H; auto.
    apply untouched_entity. cbn. auto.
  - cbn [filter]. rewrite (notAmp_plain kv Hkv). cbn [rev].
    rewrite <- app_assoc. cbn [app].
    destruct (plain_entry kv Hkv) as (u & c & Ekv & _).
    rewrite ReplaceAll_eq by (rewrite Ekv; discriminate).
    rewrite (replace_after_pass l kv Hl Hkv).
    apply IH; auto. intros e [<-|He]; auto.
Qed.

Lemma filter_notAmp_plain (order : list (gostring * gostring)) :
  (forall kv, In kv order -> In kv htmlReplacements) ->
  plainTable (rev (filter notAmp order)).
Proof.
  intros Hsub kv H. apply in_rev in H. apply filter_In in H as [Hin Hn].
  apply Hsub, table_split in Hin as [->|Hin]; [discriminate|exact Hin].
Qed.

Lemma Permutation_filter_notAmp (l l' : list (gostring * gostring)) :
  Permutation l l' -> Permutation (filter notAmp l) (filter notAmp l').
Proof.
  induction 1 as [|x l l' _ IH|x y l|l l' l'' _ IH1 _ IH2]; cbn [filter].
  - constructor.
  - destruct (notAmp x); [now constructor|exact IH].
  - destruct (notAmp x), (notAmp y); try apply Permutation_refl.
    apply perm_swap.
  - eapply Permutation_trans; eassumption.
Qed.

(** The loop over the table, in any order, is one pass that replaces the
    six other entities, when the string has no [&amp;]. *)
Lemma replaceEntities_one_pass (order : list (gostring * gostring))
  (s : gostring) :
  mapOrder order -> ~ occurs (str "&amp;") s ->
  replaceEntities order s = replacePass plainEntries 0 s.
Proof.
  intros Ho Hamp.
  rewrite <- (replacePass_nil s) at 1.
  rewrite replaceEntities_pass;
    [|now apply mapOrder_sub|intros kv []|exact Hamp].
  rewrite app_nil_r. symmetry.
  apply replacePass_perm; [intros kv H; exact H|].
  eapply Permutation_trans; [|apply Permutation_rev].
  change plainEntries with (filter notAmp htmlReplacements).
  now apply Permutation_filter_notAmp.
Qed.

Lemma stripQuotes_infix (s : gostring) :
  exists a b, s = a ++ stripQuotes s ++ b.
Proof.
  unfold stripQuotes.
  destruct (_ && _ && _) eqn:E; [|exists [], []; now rewrite app_nil_r].
  destruct s as [|c t]; [discriminate|]. cbn [tl].
  assert (Ht : t <> []).
  { destruct t; [|discriminate]. cbn in E. discriminate. }
  exists [c], [last t zero]. cbn [app]. f_equal.
  now apply app_removelast_last.
Qed.

(** X18: on a content with no [&amp;] in it, the result of [cleanupContent]
    does not depend on the order in which the replacement table is
    visited. *)
Theorem cleanupContent_order_free (printTable : Z -> bool)
  (order1 order2 : list (gostring * gostring)) (content : gostring) :
  mapOrder order1 -> mapOrder order2 ->
  ~ occurs (str "&amp;") content ->
  cleanupContent printTable order1 content
  = cleanupContent printTable order2 content.
Proof.
  intros Ho1 Ho2 Hamp. rewrite !cleanupContent_eq.
  set (x := strings.ReplaceAll (stripQuotes content) [backslash; dquote]
                               [dquote]).
  assert (Hx : ~ occurs (str "&amp;") x).
  { unfold x. rewrite ReplaceAll_eq by discriminate. intros H.
    apply replaced_occurs in H; [|discriminate|not_in_literal].
    apply Hamp. destruct (stripQuotes_infix content) as (a & b & E).
    rewrite E. now apply occurs_app. }
  now rewrite !replaceEntities_one_pass.
Qed.

Lemma cleanupContent_order_free_witness :
  cleanupContent noPrint htmlReplacements sample
  = cleanupContent noPrint (rev htmlReplacements) sample.
Proof.
  apply cleanupContent_order_free.
  - apply Permutation_refl.
  - apply Permutation_rev.
  - apply Contains_false. vm_compute. reflexivity.
Defined.

(** *** With [&amp;] in the string, the order decides *)

Lemma htmlReplacements_NoDup : NoDup htmlReplacements.
Proof.
  unfold htmlReplacements.
  repeat (constructor; [intros H; vm_compute in H; intuition discriminate|]).
  constructor.
Qed.

Lemma replaceEntities_app (a b : list (gostring * gostring)) (s : gostring) :
  replaceEntities (a ++ b) s = replaceEntities b (replaceEntities a s).
Proof. unfold replaceEntities. apply fold_left_app. Qed.

Lemma replaceEntities_idle (l : list (gostring * gostring)) (s : gostring) :
  (forall kv, In kv l -> In kv htmlReplacements /\ ~ occurs (fst kv) s) ->
  replaceEntities l s = s.
Proof.
  induction l as [|kv l IH]; intros H; [reflexivity|].
  rewrite replaceEntities_cons.
  destruct (H kv (or_introl eq_refl)) as [Hin Hno].
  assert (Hne : fst kv <> []).
  { destruct (table_entry kv Hin) as [_ Hlt]. intros E. rewrite E in Hlt.
    cbn in Hlt. lia. }
  rewrite ReplaceAll_eq by exact Hne.
  rewrite replaceFrom_absent by assumption.
  apply IH. intros kv' H'. apply H. now right.
Qed.

(** The entries whose key is in [s] are among [allowed]. *)
Lemma idle_but (allowed : list (gostring * gostring)) (s : gostring) :
  forallb (fun kv => existsb (fun x => streq (fst x) (fst kv)
                                       && streq (snd x) (snd kv)) allowed
                     || negb (strings.Contains s (fst kv)))
          htmlReplacements = true ->
  forall l, (forall kv, In kv l -> In kv htmlReplacements) ->
            (forall x, In x allowed -> ~ In x l) ->
            replaceEntities l s = s.
Proof.
  intros Hchk l Hsub Hout. apply replaceEntities_idle. intros kv Hin.
  split; [now apply Hsub|].
  rewrite forallb_forall in Hchk. specialize (Hchk kv (Hsub kv Hin)).
  apply orb_true_iff in Hchk as [Hx|Hc].
  - exfalso. apply existsb_exists in Hx as (x & Hx & E).
    apply andb_true_iff in E as [E1 E2]. apply streq_true in E1, E2.
    apply (Hout x Hx). destruct x, kv. cbn in E1, E2. now subst.
  - apply negb_true_iff in Hc. now apply Contains_false.
Qed.

(** What the passes do to the key of [kv] with [amp;] written after its
    ampersand. *)
Lemma escaped_key (printTable : Z -> bool) (kv : gostring * gostring) :
  In kv plainEntries ->
  let s := str "&amp;" ++ tl (fst kv) in
  (forall o, cleanupContent printTable o s = replaceEntities o s)
  /\ strings.ReplaceAll s (fst ampEntry) (snd ampEntry) = fst kv
  /\ strings.ReplaceAll s (fst kv) (snd kv) = s
  /\ strings.ReplaceAll (fst kv) (fst kv) (snd kv) = snd kv
  /\ (forall l, (forall x, In x l -> In x htmlReplacements) ->
                ~ In ampEntry l -> replaceEntities l s = s)
  /\ (forall l, (forall x, In x l -> In x htmlReplacements) ->
                ~ In kv l -> replaceEntities l (fst kv) = fst kv)
  /\ (forall l, (forall x, In x l -> In x htmlReplacements) ->
                replaceEntities l (snd kv) = snd kv).
Proof.
  intros Hkv s. subst s. unfold plainEntries in Hkv. cbn [In] in Hkv.
  repeat (destruct Hkv as [<-|Hkv]); [..|contradiction];
    (split; [intros o; rewrite cleanupContent_eq; reflexivity|]);
    (split; [reflexivity|]); (split; [reflexivity|]);
    (split; [reflexivity|]); (split; [|split]); intros l Hsub.
  all: try (intros Hout; apply (idle_but [ampEntry]);
            [reflexivity|exact Hsub|now intros x [<-|[]]]).
  all: try (intros Hout;
            match goal with
            | |- replaceEntities _ (fst ?e) = _ => apply (idle_but [e])
            end; [reflexivity|exact Hsub|now intros x [<-|[]]]).
  all: apply (idle_but []); [reflexivity|exact Hsub|intros x []].
Qed.

(** X19: with [amp;] written after the ampersand of an entity of the table,
    the order of the visit decides: [cleanupContent] gives the character of
    the entity when the entry of [&amp;] is visited before the entry of the
    entity, and the entity itself when it is visited after. *)
Theorem cleanupContent_order_decides (printTable : Z -> bool)
  (order : list (gostring * gostring)) (kv : gostring * gostring) :
  mapOrder order ->
  In kv plainEntries ->
  (visitedBefore ampEntry kv order ->
   cleanupContent printTable order (str "&amp;" ++ tl (fst kv)) = snd kv)
  /\ (visitedBefore kv ampEntry order ->
      cleanupContent printTable order (str "&amp;" ++ tl (fst kv)) = fst kv).
Proof.
  intros Ho Hkv.
  assert (Hnd : NoDup order).
  { eapply Permutation_NoDup; [exact Ho|apply htmlReplacements_NoDup]. }
  pose proof (mapOrder_sub order Ho) as Hsub.
  destruct (escaped_key printTable kv Hkv)
    as (Hstart & Eamp & Ekv & Ekey & Is & Ik & Iv).
  rewrite Hstart. split; intros (a & b & c & E); subst order.
  - apply NoDup_remove in Hnd as [Hnd Hamp].
    assert (Hlt : ~ In kv (b ++ c)).
    { assert (H2 : NoDup (b ++ kv :: c)).
      { apply NoDup_app_remove_l in Hnd. exact Hnd. }
      apply NoDup_remove in H2 as [_ H2]. exact H2. }
    rewrite replaceEntities_app, replaceEntities_cons, replaceEntities_app,
      replaceEntities_cons.
    rewrite (Is a).
    2: { intros x H. apply Hsub. apply in_or_app. now left. }
    2: { intros H. apply Hamp. apply in_or_app. now left. }
    rewrite Eamp. rewrite (Ik b).
    2: { intros x H. apply Hsub. apply in_or_app. right. right.
         apply in_or_app. now left. }
    2: { intros H. apply Hlt. apply in_or_app. now left. }
    rewrite Ekey. apply Iv.
    intros x H. apply Hsub. apply in_or_app. right. right.
    apply in_or_app. right. now right.
  - assert (Hamp : ~ In ampEntry (a ++ b ++ c)).
    { assert (H2 : NoDup ((a ++ kv :: b) ++ ampEntry :: c)).
      { rewrite <- app_assoc. exact Hnd. }
      apply NoDup_remove in H2 as [_ H2]. intros H. apply H2.
      apply in_app_or in H as [H|H].
      - apply in_or_app. left. apply in_or_app. now left.
      - apply in_app_or in H as [H|H].
        + apply in_or_app. left. apply in_or_app. right. now right.
        + apply in_or_app. now right. }
    apply NoDup_remove in Hnd as [Hnd Hlt].
    rewrite replaceEntities_app, replaceEntities_cons, replaceEntities_app,
      replaceEntities_cons.
    rewrite (Is a).
    2: { intros x H. apply Hsub. apply in_or_app. now left. }
    2: { intros H. apply Hamp. apply in_or_app. now left. }
    rewrite Ekv. rewrite (Is b).
    2: { intros x H. apply Hsub. apply in_or_app. right. right.
         apply in_or_app. now left. }
    2: { intros H. apply Hamp. apply in_or_app. right.
         apply in_or_app. now left. }
    rewrite Eamp. apply Ik.
    + intros x H. apply Hsub. apply in_or_app. right. right.
      apply in_or_app. right. now right.
    + intros H. apply Hlt. apply in_or_app. right.
      apply in_or_app. right. now right.
Qed.

Lemma cleanupContent_order_decides_witness :
  cleanupContent noPrint htmlReplacements (str "&amp;lt;") = str "<"
  /\ cleanupContent noPrint (rev htmlReplacements) (str "&amp;lt;")
     = str "&lt;".
Proof.
  assert (Hlt : In ltEntry plainEntries) by (right; left; reflexivity).
  split.
  - apply (proj1 (cleanupContent_order_decides noPrint htmlReplacements
                    ltEntry (Permutation_refl _) Hlt)).
    exists [(str "&nbsp;", str " ")], [],
      [(str "&gt;", str ">"); (str "&quot;", [dquote]); (str "&#39;", str "'");
       (str "&apos;", str "'")].
    reflexivity.
  - apply (proj2 (cleanupContent_order_decides noPrint (rev htmlReplacements)
                    ltEntry (Permutation_rev _) Hlt)).
    exists [(str "&apos;", str "'"); (str "&#39;", str "'");
            (str "&quot;", [dquote]); (str "&gt;", str ">")], [],
      [(str "&nbsp;", str " ")].
    reflexivity.
Defined.

(** ** The two formats of one post *)

(** Without [&amp;] in the content, [cleanupContent] is one pass over the
    string, in whatever order the table is visited. *)
Lemma cleanupContent_one_pass (printTable : Z -> bool)
  (order : list (gostring * gostring)) (content : gostring) :
  mapOrder order -> ~ occurs (str "&amp;") content ->
  cleanupContent printTable order content
  = replacePass plainEntries 0
      (strings.ReplaceAll (stripQuotes content) [backslash; dquote] [dquote]).
Proof.
  intros Ho Hamp. rewrite cleanupContent_eq.
  apply replaceEntities_one_pass; [exact Ho|].
  rewrite ReplaceAll_eq by discriminate. intros H.
  apply replaced_occurs in H; [|discriminate|not_in_literal].
  apply Hamp. destruct (stripQuotes_infix content) as (a & b & E).
  rewrite E. now apply occurs_app.
Qed.

(** X11: where a request for the format html is served, the same request
    for the format text, made in the same state, is served from the same
    upstream traffic, with the same post id and title.  Each request visits
    the replacement table in an order of its own: the text content is
    [stripHTMLTags] of the upstream content cleaned in the order of the text
    request, its count the length of that, and it is [stripHTMLTags] of the
    html content when the upstream content holds no [&amp;]. *)
Theorem getContent_text_of_html (fuel : nat) (up : Upstream)
  (printTable : Z -> bool) (order1 order2 : list (gostring * gostring))
  (post_id : option gostring) (w w' : World) (resp : ContentResponse) :
  mapOrder order1 -> mapOrder order2 ->
  getContent fuel up printTable order1 (Object post_id (Some (str "html"))) w
  = Some (renderJSON resp, w') ->
  exists content,
    fetchContentFromBetterMode fuel up (fieldValue post_id) w
    = Some ((content, Title resp, None), w')
    /\ Content resp = cleanupContent printTable order1 content
    /\ getContent fuel up printTable order2
                  (Object post_id (Some (str "text"))) w
       = Some (renderJSON
                 {| Content :=
                      stripHTMLTags (cleanupContent printTable order2 content);
                    Format := str "text";
                    PostID := PostID resp;
                    Title := Title resp;
                    CharCount :=
                      Z.of_nat (List.length
                        (stripHTMLTags
                           (cleanupContent printTable order2 content))) |},
               w')
    /\ (~ occurs (str "&amp;") content ->
        cleanupContent printTable order2 content = Content resp).
Proof.
  intros Ho1 Ho2.
  unfold getContent, Decode. cbn [reqPostID reqFormat fieldValue].
  destruct (streq (fieldValue post_id) []); [discriminate|].
  replace (chooseFormat (str "html")) with (Some (str "html")) by reflexivity.
  replace (chooseFormat (str "text")) with (Some (str "text")) by reflexivity.
  destruct (fetchContentFromBetterMode fuel up (fieldValue post_id) w)
    as [[[[c t] [e|]] w1]|]; try discriminate.
  replace (streq (str "html") (str "text")) with false by reflexivity.
  replace (streq (str "text") (str "text")) with true by reflexivity.
  intros H. injection H as <- <-. cbn [Content Title PostID].
  exists c. split; [reflexivity|]. split; [reflexivity|].
  split; [reflexivity|].
  intros Hamp. now rewrite !cleanupContent_one_pass.
Qed.

Lemma getContent_text_of_html_witness :
  exists content,
    fetchContentFromBetterMode 1 (serving sample) (str "rYDKVA8XqjSsqHK") world0
    = Some ((content, str "Title", None),
            afterPostCall (serving sample)
              (snd (RefreshToken (serving sample) world0)))
    /\ content = sample
    /\ getContent 1 (serving sample) noPrint (rev htmlReplacements)
         (Object (Some (str "rYDKVA8XqjSsqHK")) (Some (str "text"))) world0
       = Some (renderJSON
                 {| Content := str "1 it's 'so'";
                    Format := str "text";
                    PostID := str "rYDKVA8XqjSsqHK";
                    Title := str "Title";
                    CharCount := 11 |},
               afterPostCall (serving sample)
                 (snd (RefreshToken (serving sample) world0))).
Proof.
  destruct (getContent_text_of_html 1 (serving sample) noPrint
              htmlReplacements (rev htmlReplacements)
              (Some (str "rYDKVA8XqjSsqHK")) world0
              (afterPostCall (serving sample)
                 (snd (RefreshToken (serving sample) world0)))
              {| Content := cleanupContent noPrint htmlReplacements sample;
                 Format := str "html"; PostID := str "rYDKVA8XqjSsqHK";
                 Title := str "Title";
                 CharCount := Z.of_nat (List.length
                    (cleanupContent noPrint htmlReplacements sample)) |}
              (Permutation_refl _) (Permutation_rev _) eq_refl)
    as (content & Hf & Hc & Ht & _).
  exists content. split; [exact Hf|].
  assert (E : content = sample).
  { vm_compute in Hf. now injection Hf as <-. }
  split; [exact E|]. rewrite Ht, E. reflexivity.
Defined.
